(** * Instapaper newsletter archiver: a model of [archive_newsletters.py]

    The script is a linear batch job: load the configuration, exchange the
    credentials for a token pair, list the bookmarks tagged "newsletter",
    keep those older than seven days, archive each of them, print a summary
    and set the exit status.

    The model is a shallow embedding.  Python values decoded from JSON are
    the inductive type [value]; the outside of the process is a [world]
    (configuration file, clock, remote service); the script's functions are
    computations in a small monad that threads the trace of observable
    events and ends in a normal return, a [sys.exit] or an uncaught
    exception.

    Scope of the model.
    - JSON text is not parsed here: [json.load] and [response.json()] are
      library code, so the world supplies the decoded value (or the fact
      that decoding fails).
    - A JSON number without fraction or exponent is an [int]; any other
      is a [float], an IEEE 754 binary64 number, here a [spec_float] of the
      Standard Library with 53 bits of precision.  The script computes
      with floats in one place, [datetime.fromtimestamp]; the [str()] of a
      float is left unexpanded.
    - A Python [str] is a [string]; [len], slicing and iteration count its
      elements.  Literals of the script are the UTF-8 text of the source.
    - Every request is answered: connection errors and timeouts of the
      HTTP client are not modelled. *)

From stdpp Require Import base option list strings gmap pretty.
From Stdlib Require Import ZArith Lia Ascii.
From Stdlib Require Import Floats.SpecFloat.

Set Warnings "-register-all".
Local Open Scope Z_scope.

(** ** Python values *)

(** What [json.load] / [response.json()] can return.  A dict is its item
    list; [lookup_item] takes the first binding of a key. *)
Inductive value : Type :=
| VNone
| VBool (b : bool)
| VInt (n : Z)
| VFloat (x : spec_float)
| VStr (s : string)
| VList (l : list value)
| VDict (items : list (string * value)).

(** Exceptions the script can let escape. *)
Inductive exn : Type :=
| JSONDecodeError
| KeyError (key : string)
| TypeError
| ValueError
| AttributeError
| OverflowError
(* [datetime.fromtimestamp] on a number outside years 1..9999:
   ValueError, OverflowError or OSError depending on magnitude and
   platform. *)
| TimestampOutOfRange.

(** How a computation ends: it returns, calls [sys.exit(code)], or raises. *)
Inductive outcome (A : Type) : Type :=
| Ret (a : A)
| Exit (code : Z)
| Raise (e : exn).
Arguments Ret {A} a.
Arguments Exit {A} code.
Arguments Raise {A} e.

Definition nl : string := String "010"%char "".

Fixpoint lookup_item (k : string) (items : list (string * value)) : option value :=
  match items with
  | [] => None
  | (k', v) :: rest => if decide (k' = k) then Some v else lookup_item k rest
  end.

(** [obj[key]] with a string key. *)
Definition getitem (obj : value) (key : string) : outcome value :=
  match obj with
  | VDict items =>
      match lookup_item key items with
      | Some v => Ret v
      | None => Raise (KeyError key)
      end
  | _ => Raise TypeError
  end.

(** [obj.get(key, dflt)]. *)
Definition get (obj : value) (key : string) (dflt : value) : outcome value :=
  match obj with
  | VDict items => Ret (default dflt (lookup_item key items))
  | _ => Raise AttributeError
  end.

(** [len(obj)]. *)
Definition len (obj : value) : outcome Z :=
  match obj with
  | VList l => Ret (Z.of_nat (length l))
  | VDict items => Ret (Z.of_nat (length items))
  | VStr s => Ret (Z.of_nat (String.length s))
  | _ => Raise TypeError
  end.

Definition str_tail (s : string) : string :=
  match s with
  | "" => ""
  | String _ s' => s'
  end.

(** [obj[1:]].  Slicing a dict raises (TypeError up to Python 3.11, where a
    slice is unhashable; KeyError from 3.12 on). *)
Definition slice_from_1 (obj : value) : outcome value :=
  match obj with
  | VList l => Ret (VList (tail l))
  | VStr s => Ret (VStr (str_tail s))
  | _ => Raise TypeError
  end.

(** Truth value of an object, as [not obj] and [if obj] take it. *)
Definition truthy (obj : value) : bool :=
  match obj with
  | VNone => false
  | VBool b => b
  | VInt n => negb (n =? 0)
  | VFloat x => match x with S754_zero _ => false | _ => true end
  | VStr s => match s with "" => false | _ => true end
  | VList l => match l with [] => false | _ => true end
  | VDict items => match items with [] => false | _ => true end
  end.

Fixpoint chars (s : string) : list value :=
  match s with
  | "" => []
  | String c s' => VStr (String c "") :: chars s'
  end.

(** The elements a [for] loop over [obj] visits. *)
Definition iter (obj : value) : outcome (list value) :=
  match obj with
  | VList l => Ret l
  | VStr s => Ret (chars s)
  | VDict items => Ret (map (λ kv, VStr kv.1) items)
  | _ => Raise TypeError
  end.

(** ** The outside world *)

(** An HTTP response as the script reads it: [response.status_code],
    [response.text] and [response.json()] ([None] when the body does not
    decode, which raises). *)
Record response : Type := {
  status_code : Z;
  text : string;
  json : option value
}.

(** [OAuth1Session(client_key=..., client_secret=..., resource_owner_key=...,
    resource_owner_secret=...)]: the credentials that sign its requests. *)
Record session : Type := OAuth1Session {
  client_key : value;
  client_secret : value;
  resource_owner_key : option string;
  resource_owner_secret : option string
}.

(** One [session.post(url, data=...)]. *)
Record request : Type := {
  signer : session;
  url : string;
  data : list (string * value)
}.

(** [CONFIG_FILE]: absent, present but not JSON, or present with a decoded
    value. *)
Inductive config_file : Type :=
| Missing
| Unparsable
| Parsed (v : value).

(** Everything the run depends on.  [http] answers a request given the
    requests sent before it, so the service may keep state.  [now] is the
    reading of [datetime.now(timezone.utc)], in microseconds since the
    epoch. *)
Record world : Type := {
  config_path : string;
  config_source : config_file;
  now : Z;
  http : list request → request → response
}.

(** ** Observable events *)

Inductive stream : Type := Stdout | Stderr.

(** A printed line is a sequence of fragments: literal text, or the [str()]
    of a float, list or dict, which is left unexpanded. *)
Inductive frag : Type :=
| Lit (s : string)
| Repr (v : value).

Definition line : Type := list frag.

(** [{v}] inside an f-string. *)
Definition fmt (v : value) : frag :=
  match v with
  | VNone => Lit "None"
  | VBool true => Lit "True"
  | VBool false => Lit "False"
  | VInt n => Lit (pretty n)
  | VStr s => Lit s
  | _ => Repr v
  end.

Inductive event : Type :=
| Print (f : stream) (l : line)
| Post (r : request) (resp : response).

Definition trace : Type := list event.

Definition sent (tr : trace) : list request :=
  omap (λ e, match e with Post r _ => Some r | Print _ _ => None end) tr.

(** ** The monad of the script: a trace and an outcome *)

Definition M (A : Type) : Type := trace → trace * outcome A.

Definition ret {A} (a : A) : M A := λ tr, (tr, Ret a).

Definition bind {A B} (m : M A) (k : A → M B) : M B := λ tr,
  match m tr with
  | (tr', Ret a) => k a tr'
  | (tr', Exit code) => (tr', Exit code)
  | (tr', Raise e) => (tr', Raise e)
  end.

#[global] Instance M_ret : MRet M := @ret.
#[global] Instance M_bind : MBind M := λ A B k m, bind m k.

Definition lift {A} (o : outcome A) : M A := λ tr, (tr, o).
Definition raise {A} (e : exn) : M A := lift (Raise e).
Definition sys_exit {A} (code : Z) : M A := lift (Exit code).
Definition print (f : stream) (l : line) : M unit := λ tr, (tr ++ [Print f l], Ret tt).

(** The status the operating system sees: 0 on return, the argument of
    [sys.exit], 1 after an uncaught exception. *)
Definition exit_status {A} (o : outcome A) : Z :=
  match o with
  | Ret _ => 0
  | Exit code => code
  | Raise _ => 1
  end.

(** What reaches the error stream: the lines printed to it, and the
    traceback of an uncaught exception. *)
Inductive diagnostic : Type :=
| Message (l : line)
| Traceback (e : exn).

Definition stderr_lines (tr : trace) : list diagnostic :=
  omap (λ e, match e with Print Stderr l => Some (Message l) | _ => None end) tr.

Definition error_stream {A} (run : trace * outcome A) : list diagnostic :=
  stderr_lines run.1 ++
  match run.2 with
  | Raise e => [Traceback e]
  | _ => []
  end.

(** ** Library functions the script calls *)

(** [s.split(sep)] for a one-character separator: the pieces between the
    occurrences of [sep], empty pieces included; never an empty list. *)
Fixpoint split (sep : ascii) (s : string) : list string :=
  match s with
  | "" => [""]
  | String c s' =>
      if decide (c = sep) then "" :: split sep s'
      else match split sep s' with
           | [] => [String c ""]
           | piece :: pieces => String c piece :: pieces
           end
  end.

(** [dict(seqs)]: every element must have exactly two items, a later key
    overwrites an earlier one; an element of another length raises
    ValueError. *)
Fixpoint dict_update (d : gmap string string) (seqs : list (list string))
  : outcome (gmap string string) :=
  match seqs with
  | [] => Ret d
  | [k; v] :: rest => dict_update (<[k:=v]> d) rest
  | _ :: _ => Raise ValueError
  end.

Definition dict (seqs : list (list string)) : outcome (gmap string string) :=
  dict_update ∅ seqs.

(** [d[key]] on a [dict] of strings. *)
Definition subscript (d : gmap string string) (key : string) : outcome string :=
  match d !! key with
  | Some v => Ret v
  | None => Raise (KeyError key)
  end.

(** Aware datetimes are microseconds since the epoch.  [datetime] covers
    the years 1 to 9999. *)
Definition min_timestamp : Z := -62135596800.
Definition max_timestamp : Z := 253402300799.
Definition second : Z := 1000000.
Definition days (n : Z) : Z := n * 86400 * second.

(** Floats: binary64. *)
Definition float_prec : Z := 53.
Definition float_emax : Z := 1024.

(** The float [1e6], which is 15625 * 2^6. *)
Definition million : spec_float := S754_finite false 15625 6.

Definition signed (s : bool) (n : Z) : Z := if s then - n else n.

(** C's [modf] on the finite float [(-1)^s * m * 2^e]: the integer part,
    towards zero, and the fraction; both are exact and have the sign of the
    argument. *)
Definition modf (s : bool) (m : positive) (e : Z) : Z * spec_float :=
  if 0 <=? e then (signed s (Z.pos m * 2 ^ e), S754_zero s)
  else
    (signed s (Z.pos m / 2 ^ (- e)),
     match Z.pos m mod 2 ^ (- e) with
     | Z.pos r => S754_finite s r e
     | _ => S754_zero s
     end).

(** The integer nearest to [m * 2^e], ties to the even one, for a
    mantissa [m] that is not negative. *)
Definition nearest_even (m e : Z) : Z :=
  if 0 <=? e then m * 2 ^ e
  else
    let q := m / 2 ^ (- e) in
    let r := m mod 2 ^ (- e) in
    match 2 * r ?= 2 ^ (- e) with
    | Lt => q
    | Eq => if Z.even q then q else q + 1
    | Gt => q + 1
    end.

(** [_PyTime_RoundHalfEven] on a float that is zero or finite. *)
Definition round_half_even (x : spec_float) : Z :=
  match x with
  | S754_finite s m e => signed s (nearest_even (Z.pos m) e)
  | _ => 0
  end.

(** A float timestamp as seconds and microseconds
    ([_PyTime_ObjectToTimeval] with [ROUND_HALF_EVEN]): the fraction is
    multiplied by [1e6] in floating point, the product is rounded to an
    integer, and a product that reaches a whole second is carried over.
    The result is in microseconds. *)
Definition float_timestamp (x : spec_float) : outcome Z :=
  match x with
  | S754_nan => Raise ValueError
  | S754_infinity _ => Raise OverflowError
  | S754_zero _ => Ret 0
  | S754_finite s m e =>
      let '(intpart, floatpart) := modf s m e in
      let us := round_half_even (SFmul float_prec float_emax floatpart million) in
      let '(sec, us) :=
        if 1000000 <=? us then (intpart + 1, us - 1000000)
        else if us <? 0 then (intpart - 1, us + 1000000)
        else (intpart, us) in
      if (min_timestamp <=? sec) && (sec <=? max_timestamp) then Ret (sec * second + us)
      else Raise TimestampOutOfRange
  end.

(** [datetime.fromtimestamp(t, tz=timezone.utc)]; [bool] is an [int]. *)
Definition fromtimestamp (t : value) : outcome Z :=
  match t with
  | VInt n =>
      if (min_timestamp <=? n) && (n <=? max_timestamp) then Ret (n * second)
      else Raise TimestampOutOfRange
  | VBool b => Ret (Z.b2z b * second)
  | VFloat x => float_timestamp x
  | _ => Raise TypeError
  end.

(** [moment - delta] on datetimes: OverflowError below year 1. *)
Definition datetime_sub (moment delta : Z) : outcome Z :=
  if min_timestamp * second <=? moment - delta then Ret (moment - delta)
  else Raise OverflowError.

(** ** The script *)

Definition INSTAPAPER_API_BASE : string := "https://www.instapaper.com/api/1".

Section Script.

Variable w : world.

(** [session.post(url, data=data)]: the service answers, and the exchange
    is recorded. *)
Definition post (s : session) (u : string) (d : list (string * value)) : M response :=
  λ tr,
    let r := {| signer := s; url := u; data := d |} in
    let resp := http w (sent tr) r in
    (tr ++ [Post r resp], Ret resp).

Definition load_config : M value :=
  match config_source w with
  | Missing =>
      print Stderr [Lit "Error: Configuration file not found at "; Lit (config_path w)];;
      print Stderr [Lit "Please create instapaper_config.json with your credentials."];;
      print Stderr [Lit "See instapaper_config.example.json for format."];;
      sys_exit 1
  | Unparsable => raise JSONDecodeError
  | Parsed v => mret v
  end.

Definition get_access_token (username password consumer_key consumer_secret : value)
  : M (string * string) :=
  let oauth := OAuth1Session consumer_key consumer_secret None None in
  let url := INSTAPAPER_API_BASE +:+ "/oauth/access_token" in
  response ← post oauth url
    [("x_auth_username", username);
     ("x_auth_password", password);
     ("x_auth_mode", VStr "client_auth")];
  if negb (status_code response =? 200) then
    print Stderr [Lit "Error getting access token: "; Lit (pretty (status_code response))];;
    print Stderr [Lit (text response)];;
    sys_exit 1
  else
    tokens ← lift (dict (map (split "=") (split "&" (text response))));
    oauth_token ← lift (subscript tokens "oauth_token");
    oauth_token_secret ← lift (subscript tokens "oauth_token_secret");
    mret (oauth_token, oauth_token_secret).

Definition get_newsletter_bookmarks (oauth_session : session) : M value :=
  let url := INSTAPAPER_API_BASE +:+ "/bookmarks/list" in
  let bookmarks := VList [] in
  let limit := 500 in
  response ← post oauth_session url [("limit", VInt limit); ("tag", VStr "newsletter")];
  if negb (status_code response =? 200) then
    print Stderr [Lit "Error fetching bookmarks: "; Lit (pretty (status_code response))];;
    print Stderr [Lit (text response)];;
    mret (VList [])
  else
    data ← match json response with
           | Some v => mret v
           | None => raise JSONDecodeError
           end;
    n ← lift (len data);
    if 1 <? n then lift (slice_from_1 data) else mret bookmarks.

Definition archive_bookmark (oauth_session : session) (bookmark_id : value) : M bool :=
  let url := INSTAPAPER_API_BASE +:+ "/bookmarks/archive" in
  response ← post oauth_session url [("bookmark_id", bookmark_id)];
  mret (status_code response =? 200).

(** The filtering loop of [main] (lines 126-130); [old_bookmarks] is the
    list built so far. *)
Fixpoint select_old (cutoff_time : Z) (bookmarks old_bookmarks : list value)
  : M (list value) :=
  match bookmarks with
  | [] => mret old_bookmarks
  | bookmark :: rest =>
      t ← lift (getitem bookmark "time");
      bookmark_time ← lift (fromtimestamp t);
      if bookmark_time <? cutoff_time
      then select_old cutoff_time rest (old_bookmarks ++ [bookmark])
      else select_old cutoff_time rest old_bookmarks
  end.

(** The archiving loop of [main] (lines 142-151). *)
Fixpoint archive_all (oauth_session : session) (old_bookmarks : list value)
    (archived_count failed_count : Z) : M (Z * Z) :=
  match old_bookmarks with
  | [] => mret (archived_count, failed_count)
  | bookmark :: rest =>
      bookmark_id ← lift (getitem bookmark "bookmark_id");
      title ← lift (get bookmark "title" (VStr "Untitled"));
      ok ← archive_bookmark oauth_session bookmark_id;
      if ok : bool then
        print Stdout [Lit "✓ Archived: "; fmt title];;
        archive_all oauth_session rest (archived_count + 1) failed_count
      else
        print Stderr [Lit "✗ Failed to archive: "; fmt title];;
        archive_all oauth_session rest archived_count (failed_count + 1)
  end.

Definition summary (archived_count failed_count : Z) : line :=
  [Lit (nl +:+ "Summary: "); Lit (pretty archived_count); Lit " archived, ";
   Lit (pretty failed_count); Lit " failed"].

(** [main], lines 93-112: configuration, credential exchange, and the
    authenticated session. *)
Definition main_session : M session :=
  config ← load_config;
  consumer_key ← lift (getitem config "consumer_key");
  consumer_secret ← lift (getitem config "consumer_secret");
  username ← lift (getitem config "username");
  password ← lift (get config "password" (VStr ""));
  print Stdout [Lit "Authenticating with Instapaper..."];;
  '(access_token, access_token_secret) ←
    get_access_token username password consumer_key consumer_secret;
  mret (OAuth1Session consumer_key consumer_secret
          (Some access_token) (Some access_token_secret)).

(** [main], lines 122-130: the cutoff and the bookmarks older than it. *)
Definition main_old_bookmarks (bookmarks : value) : M (list value) :=
  cutoff_time ← lift (datetime_sub (now w) (days 7));
  items ← lift (iter bookmarks);
  select_old cutoff_time items [].

(** [main], lines 122-156: filter by age, archive, summarise, exit. *)
Definition main_archive (oauth_session : session) (bookmarks : value) : M unit :=
  old_bookmarks ← main_old_bookmarks bookmarks;
  print Stdout [Lit "Found "; Lit (pretty (Z.of_nat (length old_bookmarks)));
                Lit " newsletters older than 7 days"];;
  match old_bookmarks with
  | [] => print Stdout [Lit "No bookmarks to archive"]
  | _ :: _ =>
      '(archived_count, failed_count) ← archive_all oauth_session old_bookmarks 0 0;
      print Stdout (summary archived_count failed_count);;
      if 0 <? failed_count then sys_exit 1 else mret tt
  end.

(** [main], lines 114-120, then the rest. *)
Definition main_bookmarks (oauth_session : session) : M unit :=
  print Stdout [Lit "Fetching newsletter bookmarks..."];;
  bookmarks ← get_newsletter_bookmarks oauth_session;
  n ← lift (len bookmarks);
  print Stdout [Lit "Found "; Lit (pretty n); Lit " bookmarks with 'newsletter' tag"];;
  if negb (truthy bookmarks) then print Stdout [Lit "No bookmarks to process"]
  else main_archive oauth_session bookmarks.

Definition main : M unit :=
  oauth_session ← main_session;
  main_bookmarks oauth_session.

(** One run of the script from an empty trace. *)
Definition run : trace * outcome unit := main [].

End Script.

(** ** Vocabulary of the statements *)

Definition token_url : string := INSTAPAPER_API_BASE +:+ "/oauth/access_token".
Definition list_url : string := INSTAPAPER_API_BASE +:+ "/bookmarks/list".
Definition archive_url : string := INSTAPAPER_API_BASE +:+ "/bookmarks/archive".

Definition list_request (s : session) : request :=
  {| signer := s; url := list_url;
     data := [("limit", VInt 500); ("tag", VStr "newsletter")] |}.

Definition archive_request (s : session) (bookmark_id : value) : request :=
  {| signer := s; url := archive_url; data := [("bookmark_id", bookmark_id)] |}.

Definition token_request (username password consumer_key consumer_secret : value) : request :=
  {| signer := OAuth1Session consumer_key consumer_secret None None;
     url := token_url;
     data := [("x_auth_username", username); ("x_auth_password", password);
              ("x_auth_mode", VStr "client_auth")] |}.

(** A JSON number read as epoch seconds. *)
Definition epoch_seconds (v : value) : option Z :=
  match v with
  | VInt n => Some n
  | VBool b => Some (Z.b2z b)
  | _ => None
  end.

(** The [time] field of a bookmark record, in epoch seconds. *)
Definition time_of (bookmark : value) : option Z :=
  match bookmark with
  | VDict items => lookup_item "time" items ≫= epoch_seconds
  | _ => None
  end.

(** A record whose [time] is a timestamp [datetime] can represent. *)
Definition timed (bookmark : value) : Prop :=
  ∃ n, time_of bookmark = Some n ∧ min_timestamp ≤ n ≤ max_timestamp.

(** The cutoff of a run: seven days before the clock reading. *)
Definition cutoff (w : world) : Z := now w - days 7.

Definition older_than_cutoff (w : world) (bookmark : value) : bool :=
  match time_of bookmark with
  | Some n => n * second <? cutoff w
  | None => false
  end.

(** The [time] field of a bookmark record. *)
Definition time_field (bookmark : value) : option value :=
  match bookmark with
  | VDict items => lookup_item "time" items
  | _ => None
  end.

(** The number [t], read as seconds since the epoch, compared with the
    instant of [c] microseconds.  The comparison is exact: the finite float
    [(-1)^s * m * 2^e] is compared through [m * 10^6 * 2^e] and [c], with
    the power of two moved to the side where it is an integer.  [None] for
    what is not a number, NaN and the infinities included. *)
Definition seconds_cmp (t : value) (c : Z) : option comparison :=
  match t with
  | VInt n => Some (n * 1000000 ?= c)
  | VBool b => Some (Z.b2z b * 1000000 ?= c)
  | VFloat (S754_zero _) => Some (0 ?= c)
  | VFloat (S754_finite s m e) =>
      Some (signed s (Z.pos m) * 1000000 * 2 ^ Z.max 0 e ?= c * 2 ^ Z.max 0 (- e))
  | _ => None
  end.

Definition at_most (t : value) (c : Z) : Prop :=
  seconds_cmp t c = Some Lt ∨ seconds_cmp t c = Some Eq.
Definition at_least (t : value) (c : Z) : Prop :=
  seconds_cmp t c = Some Eq ∨ seconds_cmp t c = Some Gt.

(** A record whose [time] is a number from year 1 to the start of the last
    second of year 9999. *)
Definition dated (bookmark : value) : Prop :=
  ∃ t, time_field bookmark = Some t ∧
       at_least t (min_timestamp * 1000000) ∧ at_most t (max_timestamp * 1000000).

(** The instant [datetime.fromtimestamp] makes of the [time] of a record,
    in microseconds; [None] when reading or converting it raises. *)
Definition moment_of (bookmark : value) : option Z :=
  match getitem bookmark "time" with
  | Ret t => match fromtimestamp t with Ret μ => Some μ | _ => None end
  | _ => None
  end.

Definition kept (cutoff_time : Z) (bookmark : value) : bool :=
  match moment_of bookmark with
  | Some μ => μ <? cutoff_time
  | None => false
  end.

(** What Python takes for a number. *)
Definition numeric (t : value) : Prop :=
  match t with
  | VBool _ | VInt _ | VFloat _ => True
  | _ => False
  end.

(** A record without a [time] that is a number. *)
Definition undated (bookmark : value) : Prop :=
  ∀ t, time_field bookmark = Some t → ¬ numeric t.

(** The [bookmark_id] and the logged title of a record. *)
Definition id_of (bookmark : value) : option value :=
  match bookmark with
  | VDict items => lookup_item "bookmark_id" items
  | _ => None
  end.

Definition title_of (bookmark : value) : value :=
  match bookmark with
  | VDict items => default (VStr "Untitled") (lookup_item "title" items)
  | _ => VStr "Untitled"
  end.

(** The title of a record as text: the string under [title], "Untitled"
    when the record has none. *)
Definition title_text (bookmark : value) : option string :=
  match bookmark with
  | VDict items =>
      match lookup_item "title" items with
      | None => Some "Untitled"
      | Some (VStr s) => Some s
      | Some _ => None
      end
  | _ => None
  end.

(** The responses of the archive endpoint recorded in a trace. *)
Definition attempts (tr : trace) : list response :=
  omap (λ e, match e with
             | Post r resp => if decide (url r = archive_url) then Some resp else None
             | Print _ _ => None
             end) tr.

Definition succeeded (resp : response) : bool := status_code resp =? 200.

Definition successes (tr : trace) : Z :=
  Z.of_nat (length (List.filter succeeded (attempts tr))).
Definition failures (tr : trace) : Z :=
  Z.of_nat (length (List.filter (λ resp, negb (succeeded resp)) (attempts tr))).

(** The text of a line without unexpanded fragments. *)
Fixpoint render (l : line) : option string :=
  match l with
  | [] => Some ""
  | Lit s :: rest => (λ t, s +:+ t) <$> render rest
  | Repr _ :: _ => None
  end.

(** The line that reports one attempt. *)
Definition attempt_log (bookmark : value) (resp : response) : event :=
  if succeeded resp
  then Print Stdout [Lit "✓ Archived: "; fmt (title_of bookmark)]
  else Print Stderr [Lit "✗ Failed to archive: "; fmt (title_of bookmark)].

(** Occurrences of a character in a string. *)
Fixpoint count_char (c : ascii) (s : string) : nat :=
  match s with
  | "" => 0
  | String c' s' => (if decide (c' = c) then 1 else 0) + count_char c s'
  end%nat.

(** The shape of a token response the script can read: every segment
    between ampersands has exactly one equals sign, and both token keys
    occur. *)
Definition well_formed_token_body (body : string) : Prop :=
  Forall (λ segment, count_char "=" segment = 1%nat) (split "&" body) ∧
  (∃ v, "oauth_token=" +:+ v ∈ split "&" body) ∧
  (∃ v, "oauth_token_secret=" +:+ v ∈ split "&" body).

(** Events that are neither a summary line nor an exchange with the
    archive endpoint: all that the script emits before its archiving loop. *)
Definition quiet (e : event) : bool :=
  match e with
  | Print _ l => negb (length l =? 5)%nat
  | Post r _ => negb (bool_decide (url r = archive_url))
  end.

(** Events of the archiving loop: exchanges with the archive endpoint and
    the two-fragment lines that report them. *)
Definition loop_event (e : event) : bool :=
  match e with
  | Print _ l => (length l =? 2)%nat
  | Post r _ => bool_decide (url r = archive_url)
  end.

(** Anything but a line of the summary's shape. *)
Definition no_summary (e : event) : bool :=
  match e with
  | Print _ l => negb (length l =? 5)%nat
  | Post _ _ => true
  end.

(** The events of one attempt on a record: the request carrying its
    [bookmark_id], then the line reporting the outcome. *)
Definition attempt_events (s : session) (bookmark : value) (resp : response) : list event :=
  match id_of bookmark with
  | Some bookmark_id => [Post (archive_request s bookmark_id) resp; attempt_log bookmark resp]
  | None => []
  end.

Definition count_succeeded (resps : list response) : Z :=
  Z.of_nat (length (List.filter succeeded resps)).
Definition count_failed (resps : list response) : Z :=
  Z.of_nat (length (List.filter (λ resp, negb (succeeded resp)) resps)).

(** A response the world gives to some request to the archive endpoint. *)
Definition answered (w : world) (resp : response) : Prop :=
  ∃ history r, url r = archive_url ∧ resp = http w history r.

(** The credentials a configuration supplies: username, password (empty
    when absent), consumer key, consumer secret. *)
Definition credentials (w : world) : option (value * value * value * value) :=
  match config_source w with
  | Parsed (VDict items) =>
      consumer_key ← lookup_item "consumer_key" items;
      consumer_secret ← lookup_item "consumer_secret" items;
      username ← lookup_item "username" items;
      Some (username, default (VStr "") (lookup_item "password" items),
            consumer_key, consumer_secret)
  | _ => None
  end.

Definition required_fields : list string :=
  ["consumer_key"; "consumer_secret"; "username"].

(** Configurations the script cannot use: no file, a file that is not
    JSON, JSON that is not an object, an object without a required field. *)
Inductive unusable : config_file → Prop :=
| config_absent : unusable Missing
| config_malformed : unusable Unparsable
| config_not_an_object v : (∀ items, v ≠ VDict items) → unusable (Parsed v)
| config_missing_field items key :
    key ∈ required_fields → lookup_item key items = None →
    unusable (Parsed (VDict items)).

(** Lines of the script, by name. *)
Definition authenticating : event :=
  Print Stdout [Lit "Authenticating with Instapaper..."].
Definition fetching : event :=
  Print Stdout [Lit "Fetching newsletter bookmarks..."].
Definition found_tagged (n : Z) : event :=
  Print Stdout [Lit "Found "; Lit (pretty n); Lit " bookmarks with 'newsletter' tag"].
Definition found_old (n : Z) : event :=
  Print Stdout [Lit "Found "; Lit (pretty n); Lit " newsletters older than 7 days"].
Definition nothing_to_process : event := Print Stdout [Lit "No bookmarks to process"].
Definition nothing_to_archive : event := Print Stdout [Lit "No bookmarks to archive"].
Definition fetch_error (resp : response) : list event :=
  [Print Stderr [Lit "Error fetching bookmarks: "; Lit (pretty (status_code resp))];
   Print Stderr [Lit (text resp)]].
Definition token_error (resp : response) : list event :=
  [Print Stderr [Lit "Error getting access token: "; Lit (pretty (status_code resp))];
   Print Stderr [Lit (text resp)]].
Definition config_not_found (w : world) : trace :=
  [Print Stderr [Lit "Error: Configuration file not found at "; Lit (config_path w)];
   Print Stderr [Lit "Please create instapaper_config.json with your credentials."];
   Print Stderr [Lit "See instapaper_config.example.json for format."]].

(** Vocabulary of the rounding lemmas. *)

(** [j] halvings of a mantissa [n]: what is left is the quotient, and the
    round and sticky bits stay clear as long as nothing was cut off. *)
Definition shifted (n j : Z) (mrs : shr_record) : Prop :=
  shr_m mrs = n / 2 ^ j ∧
  (n mod 2 ^ j = 0 → shr_r mrs = false ∧ shr_s mrs = false).

(** [m * 2^e ≤ j] and [j ≤ m * 2^e] without fractions. *)
Definition scaled_le (m e j : Z) : Prop := m * 2 ^ Z.max 0 e ≤ j * 2 ^ Z.max 0 (- e).
Definition scaled_ge (m e j : Z) : Prop := j * 2 ^ Z.max 0 (- e) ≤ m * 2 ^ Z.max 0 e.

(** ** Example worlds

    A service that answers each endpoint with one fixed response, a clock
    whose cutoff falls on second 1700000000, and the scenarios of the
    specification built from them. *)

Definition example_config : value :=
  VDict [("consumer_key", VStr "key"); ("consumer_secret", VStr "secret");
         ("username", VStr "reader@example.org")].

Definition record (bookmark_id time : Z) (title : string) : value :=
  VDict [("bookmark_id", VInt bookmark_id); ("title", VStr title); ("time", VInt time)].

Definition answer (code : Z) (body : string) (decoded : option value) : response :=
  {| status_code := code; text := body; json := decoded |}.

Definition service (token listing archive : response)
    (history : list request) (r : request) : response :=
  if decide (url r = token_url) then token
  else if decide (url r = list_url) then listing
  else archive.

Definition example_world (config : config_file) (token listing archive : response) : world :=
  {| config_path := "/opt/instapaper/instapaper_config.json";
     config_source := config;
     now := (1700000000 + 604800) * second;
     http := service token listing archive |}.

Definition token_ok : response :=
  answer 200 "oauth_token=tok&oauth_token_secret=sec" None.

Definition example_session : session :=
  OAuth1Session (VStr "key") (VStr "secret") (Some "tok") (Some "sec").

Definition example_token_request : request :=
  token_request (VStr "reader@example.org") (VStr "") (VStr "key") (VStr "secret").

Definition account : value := VDict [("type", VStr "user"); ("user_id", VInt 7)].

Definition three_bookmarks : list value :=
  [record 1 1699999999 "Older"; record 2 1700000000 "At the cutoff";
   record 3 1600000000 "Much older"].

Definition listing_of (bookmarks : list value) : response :=
  answer 200 "" (Some (VList (account :: bookmarks))).

(** Scenario A: three tagged bookmarks, two older than the cutoff, both
    archived. *)
Definition scenario_a : world :=
  example_world (Parsed example_config) token_ok (listing_of three_bookmarks) (answer 200 "" None).

(** Scenario B: one old bookmark, the archive call fails. *)
Definition scenario_b : world :=
  example_world (Parsed example_config) token_ok
    (listing_of [record 1 1699999999 "Older"]) (answer 500 "" None).

(** Scenario C: no tagged bookmark. *)
Definition scenario_c : world :=
  example_world (Parsed example_config) token_ok (listing_of []) (answer 200 "" None).

(** Scenario D: the listing call fails. *)
Definition scenario_d : world :=
  example_world (Parsed example_config) token_ok
    (answer 500 "Internal Server Error" None) (answer 200 "" None).

(** The archive endpoint answers 204. *)
Definition scenario_no_content : world :=
  example_world (Parsed example_config) token_ok
    (listing_of [record 1 1699999999 "Older"]) (answer 204 "" None).

(** The token endpoint rejects the credentials. *)
Definition scenario_rejected : world :=
  example_world (Parsed example_config) (answer 401 "Invalid xAuth credentials." None)
    (listing_of three_bookmarks) (answer 200 "" None).

(** The token endpoint answers 200 without a token secret. *)
Definition scenario_truncated : world :=
  example_world (Parsed example_config) (answer 200 "oauth_token=tok" None)
    (listing_of three_bookmarks) (answer 200 "" None).

(** The configuration lacks the username. *)
Definition scenario_no_username : world :=
  example_world
    (Parsed (VDict [("consumer_key", VStr "key"); ("consumer_secret", VStr "secret")]))
    token_ok (listing_of three_bookmarks) (answer 200 "" None).

(** ** Further example worlds *)

(** Two listed bookmarks, neither older than the cutoff. *)
Definition recent_bookmarks : list value :=
  [record 2 1700000000 "At the cutoff"; record 4 1700000500 "Recent"].

Definition scenario_recent : world :=
  example_world (Parsed example_config) token_ok (listing_of recent_bookmarks)
    (answer 200 "" None).

(** An old record without [bookmark_id] between two complete ones. *)
Definition record_without_id : value :=
  VDict [("title", VStr "No identifier"); ("time", VInt 1650000000)].

Definition bookmarks_with_gap : list value :=
  [record 1 1699999999 "Older"; record_without_id; record 3 1600000000 "Much older"].

Definition scenario_gap : world :=
  example_world (Parsed example_config) token_ok (listing_of bookmarks_with_gap)
    (answer 200 "" None).

(** An old record followed by one without [time]. *)
Definition bookmarks_with_untimed : list value :=
  [record 1 1699999999 "Older"; VDict [("bookmark_id", VInt 9); ("title", VStr "No time")]].

(** The listing endpoint answers 200 with a page that is not JSON. *)
Definition scenario_html : world :=
  example_world (Parsed example_config) token_ok
    (answer 200 "<html>Service unavailable</html>" None) (answer 200 "" None).

(** The listing endpoint answers 200 with an error object. *)
Definition error_object : value := VDict [("error", VStr "rate limit exceeded")].

Definition scenario_error_object : world :=
  example_world (Parsed example_config) token_ok
    (answer 200 "" (Some error_object)) (answer 200 "" None).

(** The token endpoint repeats a key. *)
Definition scenario_repeated_key : world :=
  example_world (Parsed example_config)
    (answer 200 "oauth_token=stale&oauth_token_secret=sec&oauth_token=tok" None)
    (listing_of three_bookmarks) (answer 200 "" None).

(** The float 1699999999.5. *)
Definition half_second_before : spec_float := S754_finite false 7130316797902848 (-22).

(** The float next below 1700000000, which is 1700000000 - 2^-22; JSON
    writes it 1699999999.9999998. *)
Definition just_before : spec_float := S754_finite false 7130316799999999 (-22).

Definition float_record (bookmark_id : Z) (time : spec_float) (title : string) : value :=
  VDict [("bookmark_id", VInt bookmark_id); ("title", VStr title); ("time", VFloat time)].

Definition mixed_bookmarks : list value :=
  [record 1 1699999999 "Older"; float_record 5 half_second_before "Half a second";
   float_record 6 just_before "A quarter of a microsecond";
   record 2 1700000000 "At the cutoff"].

(** Times with fractions, around the cutoff. *)
Definition scenario_fractional : world :=
  example_world (Parsed example_config) token_ok (listing_of mixed_bookmarks)
    (answer 200 "" None).

(** A record without title. *)
Definition untitled_record : value :=
  VDict [("bookmark_id", VInt 4); ("time", VInt 1650000000)].

(** ** Running computations

    The equations that execute one statement of a computation on a trace,
    and the tactic [exec] that applies them as far as the code is known. *)

Lemma bind_run {A B} (m : M A) (k : A → M B) tr :
  (m ≫= k) tr =
  match m tr with
  | (tr', Ret a) => k a tr'
  | (tr', Exit code) => (tr', Exit code)
  | (tr', Raise e) => (tr', Raise e)
  end.
Proof. reflexivity. Qed.

Lemma post_run w s u d tr :
  post w s u d tr =
  (tr ++ [Post {| signer := s; url := u; data := d |}
               (http w (sent tr) {| signer := s; url := u; data := d |})],
   Ret (http w (sent tr) {| signer := s; url := u; data := d |})).
Proof. reflexivity. Qed.

Lemma print_run f l tr : print f l tr = (tr ++ [Print f l], Ret tt).
Proof. reflexivity. Qed.

Lemma lift_run {A} (o : outcome A) tr : lift o tr = (tr, o).
Proof. reflexivity. Qed.

Lemma raise_run {A} e tr : @raise A e tr = (tr, Raise e).
Proof. reflexivity. Qed.

Lemma sys_exit_run {A} code tr : @sys_exit A code tr = (tr, Exit code).
Proof. reflexivity. Qed.

Lemma mret_run {A} (a : A) tr : (mret a : M A) tr = (tr, Ret a).
Proof. reflexivity. Qed.

Ltac exec :=
  repeat first
    [ rewrite bind_run
    | rewrite post_run
    | rewrite print_run
    | rewrite lift_run
    | rewrite raise_run
    | rewrite sys_exit_run
    | rewrite mret_run
    | progress cbv beta iota ].

(** Records of the example worlds carry representable timestamps. *)
Ltac timed_records :=
  repeat constructor; eexists; (split; [reflexivity | vm_compute; split; discriminate]).

(** ** The age filter *)

Lemma timed_fromtimestamp bookmark n :
  time_of bookmark = Some n → min_timestamp ≤ n ≤ max_timestamp →
  ∃ t, getitem bookmark "time" = Ret t ∧ fromtimestamp t = Ret (n * second).
Proof.
  intros Ht Hn. destruct bookmark as [| | | | | |items]; try discriminate.
  simpl in Ht. unfold getitem.
  destruct (lookup_item "time" items) as [t|]; [|discriminate].
  exists t. split; [done|].
  destruct t as [|b|m| | | |]; simpl in Ht; try discriminate.
  - by injection Ht as <-.
  - injection Ht as <-. unfold fromtimestamp.
    destruct (Z.leb_spec min_timestamp m), (Z.leb_spec m max_timestamp); simpl; done || lia.
Qed.

(** The loop leaves the trace alone and appends, in order, the records
    older than the cutoff. *)
Lemma select_old_filter w bookmarks old tr :
  Forall timed bookmarks →
  select_old (cutoff w) bookmarks old tr
  = (tr, Ret (old ++ List.filter (older_than_cutoff w) bookmarks)).
Proof.
  intros Hall. revert old. induction Hall as [|b rest [n [Ht Hn]] _ IH]; intros old.
  - simpl. by rewrite app_nil_r.
  - destruct (timed_fromtimestamp b n Ht Hn) as (t & Hget & Hfrom).
    cbn [select_old List.filter]. rewrite bind_run, lift_run, Hget.
    rewrite bind_run, lift_run, Hfrom.
    replace (older_than_cutoff w b) with (n * second <? cutoff w)
      by (unfold older_than_cutoff; by rewrite Ht).
    destruct (n * second <? cutoff w); rewrite IH; [by rewrite <- app_assoc | done].
Qed.

Lemma main_old_bookmarks_filter w bookmarks tr :
  min_timestamp * second ≤ cutoff w →
  Forall timed bookmarks →
  main_old_bookmarks w (VList bookmarks) tr
  = (tr, Ret (List.filter (older_than_cutoff w) bookmarks)).
Proof.
  intros Hclock Hall. unfold main_old_bookmarks. rewrite bind_run, lift_run.
  unfold datetime_sub. fold (cutoff w).
  destruct (Z.leb_spec (min_timestamp * second) (cutoff w)); [|lia].
  rewrite bind_run, lift_run. unfold iter.
  by rewrite select_old_filter.
Qed.

(** ** Rounding in binary64 *)

Lemma digits2_pos_bounds p :
  2 ^ (Z.pos (digits2_pos p) - 1) ≤ Z.pos p < 2 ^ Z.pos (digits2_pos p).
Proof.
  induction p as [p IH|p IH|]; simpl digits2_pos; [| |simpl; lia].
  - rewrite Pos2Z.inj_succ, Z.pow_succ_r by lia.
    replace (Z.succ (Z.pos (digits2_pos p)) - 1) with (Z.succ (Z.pos (digits2_pos p) - 1)) by lia.
    rewrite Z.pow_succ_r by lia. lia.
  - rewrite Pos2Z.inj_succ, Z.pow_succ_r by lia.
    replace (Z.succ (Z.pos (digits2_pos p)) - 1) with (Z.succ (Z.pos (digits2_pos p) - 1)) by lia.
    rewrite Z.pow_succ_r by lia. lia.
Qed.

(** A number below [2^j] has at most [j] binary digits. *)
Lemma Zdigits2_le m j : 0 ≤ m → 0 ≤ j → m < 2 ^ j → Zdigits2 m ≤ j.
Proof.
  intros Hm Hj Hlt. destruct m as [|p|p]; simpl; [lia| |lia].
  destruct (digits2_pos_bounds p) as [Hlo _].
  destruct (Z.le_gt_cases (Z.pos (digits2_pos p)) j) as [|Hgt]; [done|].
  assert (2 ^ j ≤ 2 ^ (Z.pos (digits2_pos p) - 1)) by (apply Z.pow_le_mono_r; lia). lia.
Qed.

Lemma Zdigits2_nonneg m : 0 ≤ Zdigits2 m.
Proof. destruct m; simpl; lia. Qed.

Lemma Zdigits2_lt m : 0 ≤ m → m < 2 ^ Zdigits2 m.
Proof.
  intros Hm. destruct m as [|p|p]; simpl; [lia| |lia]. apply digits2_pos_bounds.
Qed.

Lemma shr_1_m mrs : 0 ≤ shr_m mrs → shr_m (shr_1 mrs) = shr_m mrs / 2.
Proof.
  destruct mrs as [m r s]. simpl. intros Hm.
  destruct m as [|[p|p|]|p]; cbn [shr_m shr_1]; try lia; try reflexivity.
  - apply (Z.div_unique _ _ _ 1); lia.
  - apply (Z.div_unique _ _ _ 0); lia.
Qed.

Lemma shr_1_r mrs : 0 ≤ shr_m mrs → shr_r (shr_1 mrs) = Z.odd (shr_m mrs).
Proof. destruct mrs as [m r s]. simpl. intros Hm. by destruct m as [|[p|p|]|p]. Qed.

Lemma shr_1_s mrs : shr_s (shr_1 mrs) = shr_r mrs || shr_s mrs.
Proof. destruct mrs as [m r s]. simpl. by destruct m as [|[p|p|]|[p|p|]]. Qed.

Lemma shifted_step n j mrs :
  0 ≤ n → 0 ≤ j → shifted n j mrs → shifted n (j + 1) (shr_1 mrs).
Proof.
  intros Hn Hj [Hm Hclear].
  assert (0 < 2 ^ j) as Hpow by (apply Z.pow_pos_nonneg; lia).
  assert (0 ≤ shr_m mrs) as Hpos by (rewrite Hm; apply Z.div_pos; lia).
  assert (2 ^ (j + 1) = 2 ^ j * 2) as Hsucc by (rewrite Z.pow_add_r by lia; lia).
  split.
  - rewrite shr_1_m, Hm, Hsucc by done. rewrite Z.div_div by lia. done.
  - intros Hmod. rewrite Hsucc in Hmod.
    assert (n mod 2 ^ j = 0 ∧ (n / 2 ^ j) mod 2 = 0) as [Hlow Heven].
    { rewrite Z.rem_mul_r in Hmod by lia.
      pose proof (Z.mod_pos_bound n (2 ^ j) Hpow).
      pose proof (Z.mod_pos_bound (n / 2 ^ j) 2). nia. }
    destruct (Hclear Hlow) as [Hr Hs].
    rewrite shr_1_r, shr_1_s, Hr, Hs, Hm by done. split; [|done].
    rewrite <- Z.negb_even. apply negb_false_iff. apply Z.even_spec.
    exists (n / 2 ^ j / 2). pose proof (Z.div_mod (n / 2 ^ j) 2). lia.
Qed.

Lemma shifted_iter n p : ∀ j mrs,
  0 ≤ n → 0 ≤ j → shifted n j mrs → shifted n (j + Z.pos p) (iter_pos shr_1 p mrs).
Proof.
  induction p as [p IH|p IH|]; intros j mrs Hn Hj Hinv; simpl iter_pos.
  - replace (j + Z.pos p~1) with (j + 1 + Z.pos p + Z.pos p) by lia.
    apply IH; [done|lia|]. apply IH; [done|lia|]. by apply shifted_step.
  - replace (j + Z.pos p~0) with (j + Z.pos p + Z.pos p) by lia.
    apply IH; [done|lia|]. by apply IH.
  - by apply shifted_step.
Qed.

Lemma shifted_0 n : shifted n 0 {| shr_m := n; shr_r := false; shr_s := false |}.
Proof. split; simpl; [by rewrite Z.div_1_r|done]. Qed.

(** The first step of rounding an exact mantissa: the exponent rises to
    the one the format allows, the mantissa is the quotient, and the
    location is exact when the division is. *)
Lemma shr_fexp_exact m e :
  0 ≤ m →
  ∃ mrs e1,
    shr_fexp float_prec float_emax m e loc_Exact = (mrs, e1) ∧
    e ≤ e1 ∧
    (e1 = e ∨ e1 = fexp float_prec float_emax (Zdigits2 m + e)) ∧
    shr_m mrs = m / 2 ^ (e1 - e) ∧
    (m mod 2 ^ (e1 - e) = 0 → loc_of_shr_record mrs = loc_Exact).
Proof.
  intros Hm. unfold shr_fexp, shr. simpl shr_record_of_loc.
  destruct (fexp float_prec float_emax (Zdigits2 m + e) - e) as [|p|p] eqn:Hn.
  - eexists _, _. split; [done|]. rewrite Z.sub_diag. simpl. rewrite Z.div_1_r.
    split; [lia|]. by auto.
  - pose proof (shifted_iter m p 0 _ Hm (Z.le_refl 0) (shifted_0 m)) as [Hq Hclear].
    eexists _, _. split; [done|].
    replace (e + Z.pos p - e) with (0 + Z.pos p) by lia.
    split; [lia|]. split; [right; lia|]. split; [done|].
    intros Hmod. destruct (Hclear Hmod) as [Hr Hs].
    destruct (iter_pos shr_1 p _) as [m' r s]. simpl in *. by subst.
  - eexists _, _. split; [done|]. rewrite Z.sub_diag. simpl. rewrite Z.div_1_r.
    split; [lia|]. by auto.
Qed.

Lemma round_nearest_even_range m l :
  m ≤ round_nearest_even m l ≤ m + 1 ∧ (l = loc_Exact → round_nearest_even m l = m).
Proof.
  destruct l as [|[]]; simpl; (split; [|done]); try lia. destruct (Z.even m); lia.
Qed.

(** Dividing the mantissa by [2^n] while the exponent rises by [n] keeps a
    number on its side of every integer, as long as the new exponent is
    not positive. *)
Lemma shift_bounds m e n j :
  0 ≤ n → n = 0 ∨ e + n ≤ 0 →
  (scaled_le m e j → scaled_le (m / 2 ^ n) (e + n) j) ∧
  (scaled_ge m e j → scaled_ge (m / 2 ^ n) (e + n) j) ∧
  (scaled_le m e j → m / 2 ^ n = j * 2 ^ Z.max 0 (- (e + n)) → 0 < n → m mod 2 ^ n = 0).
Proof.
  intros Hn [->|Hneg].
  { rewrite Z.add_0_r, Z.pow_0_r, Z.div_1_r. split; [done|]. split; [done|]. intros; lia. }
  destruct (decide (n = 0)) as [->|Hpos].
  { rewrite Z.add_0_r, Z.pow_0_r, Z.div_1_r. split; [done|]. split; [done|]. intros; lia. }
  unfold scaled_le, scaled_ge.
  rewrite !(Z.max_l 0 e), !(Z.max_l 0 (e + n)) by lia.
  rewrite !(Z.max_r 0 (- e)), !(Z.max_r 0 (- (e + n))) by lia.
  replace (- e) with (- (e + n) + n) by lia.
  rewrite Z.pow_add_r, Z.pow_0_r, !Z.mul_1_r by lia.
  assert (0 < 2 ^ (- (e + n))) as Ha by (apply Z.pow_pos_nonneg; lia).
  assert (0 < 2 ^ n) as Hb by (apply Z.pow_pos_nonneg; lia).
  set (a := 2 ^ (- (e + n))) in *. set (b := 2 ^ n) in *.
  split; [|split].
  - intros Hle. apply Z.div_le_upper_bound; [done|]. lia.
  - intros Hge. apply Z.div_le_lower_bound; [done|]. lia.
  - intros Hle Heq _. pose proof (Z.div_mod m b ltac:(lia)) as Hdiv.
    pose proof (Z.mod_pos_bound m b Hb). rewrite Heq in Hdiv. nia.
Qed.

(** Shifting to the exponent of the format and rounding to nearest leaves
    the number on its side of every integer. *)
Lemma round_step_bounds m e :
  0 ≤ m →
  ∃ mrs e1,
    shr_fexp float_prec float_emax m e loc_Exact = (mrs, e1) ∧
    (e1 = e ∨ (e < e1 ∧ e1 = fexp float_prec float_emax (Zdigits2 m + e))) ∧
    let m2 := round_nearest_even (shr_m mrs) (loc_of_shr_record mrs) in
    m / 2 ^ (e1 - e) ≤ m2 ≤ m / 2 ^ (e1 - e) + 1 ∧
    (e1 = e → m2 = m) ∧
    ∀ j, e1 = e ∨ e1 ≤ 0 →
      (scaled_le m e j → scaled_le m2 e1 j) ∧ (scaled_ge m e j → scaled_ge m2 e1 j).
Proof.
  intros Hm. destruct (shr_fexp_exact m e Hm) as (mrs & e1 & Hrun & Hle & He1 & Hq & Hexact).
  exists mrs, e1. split; [done|].
  split. { destruct He1 as [->|He1]; [by left|]. destruct (decide (e1 = e)); [by left|right; lia]. }
  destruct (round_nearest_even_range (shr_m mrs) (loc_of_shr_record mrs)) as [Hrange Hsame].
  cbn zeta. rewrite <- Hq. split; [done|].
  assert (e1 = e → round_nearest_even (shr_m mrs) (loc_of_shr_record mrs) = m) as Hid.
  { intros ->. rewrite Hsame.
    - by rewrite Hq, Z.sub_diag, Z.pow_0_r, Z.div_1_r.
    - apply Hexact. rewrite Z.sub_diag, Z.pow_0_r. apply Z.mod_1_r. }
  split; [done|]. intros j Hsmall.
  destruct (decide (e1 = e)) as [Heq|Hne].
  { rewrite (Hid Heq). by subst e1. }
  destruct Hsmall as [?|Hsmall]; [done|].
  destruct (shift_bounds m e (e1 - e) j) as (Hlow & Hhigh & Htight); [lia|right; lia|].
  replace (e + (e1 - e)) with e1 in * by lia. rewrite <- Hq in Hlow, Hhigh, Htight.
  set (m2 := round_nearest_even _ _) in *. set (q := shr_m mrs) in *.
  split.
  - intros Hj. specialize (Hlow Hj). unfold scaled_le in Hlow |- *.
    rewrite (Z.max_l 0 e1) in Hlow |- * by lia. rewrite Z.pow_0_r, Z.mul_1_r in Hlow |- *.
    destruct (decide (q = j * 2 ^ Z.max 0 (- e1))) as [Htie|Hless]; [|lia].
    subst m2. rewrite Hsame; [lia|]. apply Hexact. apply Htight; [done|done|lia].
  - intros Hj. specialize (Hhigh Hj). unfold scaled_ge in Hhigh |- *.
    rewrite (Z.max_l 0 e1) in Hhigh |- * by lia. rewrite Z.pow_0_r, Z.mul_1_r in Hhigh |- *. lia.
Qed.

(** Rounding to the nearest integer keeps a number on its side of every
    integer. *)
Lemma nearest_even_bounds m e j :
  0 ≤ m →
  (scaled_le m e j → nearest_even m e ≤ j) ∧
  (scaled_ge m e j → j ≤ nearest_even m e).
Proof.
  intros Hm. unfold nearest_even, scaled_le, scaled_ge.
  destruct (Z.leb_spec 0 e) as [He|He].
  - rewrite (Z.max_l 0 (- e)), (Z.max_r 0 e), Z.pow_0_r by lia. lia.
  - rewrite (Z.max_r 0 (- e)), (Z.max_l 0 e), Z.pow_0_r by lia.
    assert (0 < 2 ^ (- e)) as Hb by (apply Z.pow_pos_nonneg; lia).
    set (b := 2 ^ (- e)) in *.
    pose proof (Z.div_mod m b ltac:(lia)) as Hdiv.
    pose proof (Z.mod_pos_bound m b Hb) as Hr.
    set (q := m / b) in *. set (r := m mod b) in *. cbv zeta.
    split; intros Hj.
    + assert (q < j ∨ (q = j ∧ r = 0)) as [Hlt|[-> ->]] by nia.
      * destruct (2 * r ?= b); [destruct (Z.even q)|..]; lia.
      * replace (2 * 0 ?= b) with Lt by (symmetry; apply Z.compare_lt_iff; lia). lia.
    + assert (j ≤ q) by nia.
      destruct (2 * r ?= b); [destruct (Z.even q)|..]; lia.
Qed.

Lemma nearest_even_0 e : nearest_even 0 e = 0.
Proof.
  unfold nearest_even. destruct (0 <=? e); [done|].
  assert (0 < 2 ^ (- e) ∨ 2 ^ (- e) = 0) as [Hb|Hb].
  { pose proof (Z.pow_nonneg 2 (- e)). lia. }
  - rewrite Z.mod_0_l, Z.div_0_l by lia.
    by replace (2 * 0 ?= 2 ^ (- e)) with Lt by (symmetry; apply Z.compare_lt_iff; lia).
  - rewrite Hb. simpl. done.
Qed.

(** The product of a fraction and [1e6], rounded to binary64 and then to an
    integer: for a product [n * 2^e] below [2^20] the result is on the same
    side of every integer as the exact product. *)
Lemma rounded_product_bounds sx n e :
  Z.pos (digits2_pos n) + e ≤ 20 → e ≤ 5 →
  ∃ u,
    round_half_even (binary_round_aux float_prec float_emax sx (Z.pos n) e loc_Exact)
    = signed sx u ∧
    ∀ j, (scaled_le (Z.pos n) e j → u ≤ j) ∧ (scaled_ge (Z.pos n) e j → j ≤ u).
Proof.
  intros Hsmall He. unfold binary_round_aux.
  destruct (round_step_bounds (Z.pos n) e ltac:(lia))
    as (mrs & e1 & -> & He1 & Hrange & Hsame & Hbounds).
  cbn zeta in *. set (m2 := round_nearest_even _ _) in *.
  assert (fexp float_prec float_emax (Zdigits2 (Z.pos n) + e) ≤ -33) as Hfexp.
  { unfold fexp, emin, float_prec, float_emax. simpl Zdigits2. lia. }
  assert (e1 = e ∨ e1 ≤ -33) as He1' by lia.
  assert (0 ≤ m2) as Hm2.
  { assert (0 ≤ Z.pos n / 2 ^ (e1 - e)); [|lia]. apply Z.div_pos; [lia|].
    apply Z.pow_pos_nonneg; lia. }
  assert (Zdigits2 m2 + e1 ≤ 21) as Hdigits.
  { destruct (decide (e1 = e)) as [->|Hne].
    - rewrite Hsame by done. simpl. lia.
    - assert (e < e1) as Hlt by lia. set (d := Z.pos (digits2_pos n)) in *.
      assert (Z.pos n < 2 ^ d) as Hn by apply digits2_pos_bounds.
      assert (0 < 2 ^ (e1 - e)) as Hb by (apply Z.pow_pos_nonneg; lia).
      destruct (Z.le_gt_cases (e1 - e) d) as [Hshort|Hlong].
      + assert (Z.pos n / 2 ^ (e1 - e) < 2 ^ (d - (e1 - e))).
        { apply Z.div_lt_upper_bound; [done|]. rewrite <- Z.pow_add_r by lia.
          by replace (e1 - e + (d - (e1 - e))) with d by lia. }
        assert (Zdigits2 m2 ≤ d - (e1 - e) + 1); [|lia].
        apply Zdigits2_le; [done|lia|]. rewrite Z.pow_add_r by lia. lia.
      + assert (Z.pos n / 2 ^ (e1 - e) = 0) as Hzero.
        { apply Z.div_small. split; [lia|].
          assert (2 ^ d ≤ 2 ^ (e1 - e)) by (apply Z.pow_le_mono_r; lia). lia. }
        assert (Zdigits2 m2 ≤ 1); [|lia]. apply Zdigits2_le; [done|lia|]. simpl. lia. }
  destruct (shr_fexp_exact m2 e1 Hm2) as (mrs2 & e2 & -> & Hle2 & He2 & Hq2 & _).
  assert (fexp float_prec float_emax (Zdigits2 m2 + e1) ≤ -32) as Hfexp2.
  { unfold fexp, emin, float_prec, float_emax. lia. }
  assert (e2 = e1 ∨ e2 ≤ -32) as He2' by lia.
  assert (0 ≤ shr_m mrs2) as Hm3.
  { rewrite Hq2. apply Z.div_pos; [lia|]. apply Z.pow_pos_nonneg; lia. }
  exists (nearest_even (shr_m mrs2) e2). split.
  - destruct (shr_m mrs2) as [|m3|m3] eqn:Hm; [| |lia].
    + rewrite nearest_even_0. by destruct sx.
    + replace (e2 <=? float_emax - float_prec) with true; [done|].
      symmetry. apply Z.leb_le. unfold float_emax, float_prec. lia.
  - intros j. destruct (Hbounds j ltac:(lia)) as [Hlow Hhigh].
    destruct (shift_bounds m2 e1 (e2 - e1) j) as (Hlow2 & Hhigh2 & _); [lia|lia|].
    replace (e1 + (e2 - e1)) with e2 in * by lia. rewrite <- Hq2 in Hlow2, Hhigh2.
    destruct (nearest_even_bounds (shr_m mrs2) e2 j Hm3) as [Hlow3 Hhigh3].
    split; intros Hj; [apply Hlow3, Hlow2, Hlow, Hj|apply Hhigh3, Hhigh2, Hhigh, Hj].
Qed.

Lemma signed_mul s a b : signed s a * b = signed s (a * b).
Proof. destruct s; simpl; lia. Qed.

Lemma signed_add s a b : signed s a + signed s b = signed s (a + b).
Proof. destruct s; simpl; lia. Qed.

(** The exact product of the fraction [r * 2^-k] and [1e6], against an
    integer. *)
Lemma scaled_product r k j :
  0 < k →
  (scaled_le (r * 15625) (- k + 6) j ↔ r * 1000000 ≤ j * 2 ^ k) ∧
  (scaled_ge (r * 15625) (- k + 6) j ↔ j * 2 ^ k ≤ r * 1000000).
Proof.
  intros Hk. unfold scaled_le, scaled_ge.
  destruct (Z.le_gt_cases k 6) as [Hsmall|Hlarge].
  - rewrite (Z.max_r 0 (- k + 6)), (Z.max_l 0 (- (- k + 6))), Z.pow_0_r by lia.
    assert (2 ^ (- k + 6) * 2 ^ k = 64) as Hpow.
    { rewrite <- Z.pow_add_r by lia. by replace (- k + 6 + k) with 6 by lia. }
    assert (0 < 2 ^ k) as Hb by (apply Z.pow_pos_nonneg; lia).
    set (a := 2 ^ (- k + 6)) in *. set (b := 2 ^ k) in *.
    assert (r * 1000000 = r * 15625 * a * b) as ->.
    { replace (r * 15625 * a * b) with (r * 15625 * (a * b)) by ring. rewrite Hpow. lia. }
    rewrite !Z.mul_1_r.
    split; [apply (Z.mul_le_mono_pos_r _ _ b Hb)|apply (Z.mul_le_mono_pos_r _ _ b Hb)].
  - rewrite (Z.max_l 0 (- k + 6)), (Z.max_r 0 (- (- k + 6))), Z.pow_0_r by lia.
    assert (2 ^ k = 2 ^ (- (- k + 6)) * 64) as ->.
    { replace k with (- (- k + 6) + 6) at 1 by lia. rewrite Z.pow_add_r by lia. done. }
    split; split; lia.
Qed.

(** Carrying a rounded microsecond count that reaches a second, or is
    negative, changes neither the instant nor, afterwards, the range of the
    microseconds. *)
Lemma carry_spec intpart us :
  -1000000 ≤ us ≤ 1000000 →
  let '(sec, us') :=
    if 1000000 <=? us then (intpart + 1, us - 1000000)
    else if us <? 0 then (intpart - 1, us + 1000000)
    else (intpart, us) in
  sec * second + us' = intpart * second + us ∧ 0 ≤ us' < second.
Proof.
  intros Hus. unfold second.
  destruct (Z.leb_spec 1000000 us); [lia|]. destruct (Z.ltb_spec us 0); lia.
Qed.

Lemma in_range_seconds sec us :
  0 ≤ us < second →
  (min_timestamp <=? sec) && (sec <=? max_timestamp)
  = (min_timestamp * second <=? sec * second + us)
    && (sec * second + us <? (max_timestamp + 1) * second).
Proof.
  unfold second. intros Hus.
  destruct (Z.leb_spec min_timestamp sec), (Z.leb_spec sec max_timestamp),
    (Z.leb_spec (min_timestamp * 1000000) (sec * 1000000 + us)),
    (Z.ltb_spec (sec * 1000000 + us) ((max_timestamp + 1) * 1000000)); simpl; lia.
Qed.

(** Whole floats convert exactly. *)
Lemma float_timestamp_whole s m e intpart :
  modf s m e = (intpart, S754_zero s) →
  float_timestamp (S754_finite s m e)
  = if (min_timestamp * second <=? intpart * second)
       && (intpart * second <? (max_timestamp + 1) * second)
    then Ret (intpart * second) else Raise TimestampOutOfRange.
Proof.
  intros Hmodf. unfold float_timestamp. rewrite Hmodf. simpl SFmul. simpl round_half_even.
  change (1000000 <=? 0) with false. change (0 <? 0) with false. cbv iota.
  rewrite (in_range_seconds intpart 0) by (unfold second; lia). by rewrite Z.add_0_r.
Qed.

(** [datetime.fromtimestamp] on a finite float: the instant it returns is
    on the same side of every whole microsecond as the float itself, and it
    raises exactly when that instant is outside the years 1 to 9999. *)
Lemma float_timestamp_finite s m e :
  ∃ μ,
    float_timestamp (S754_finite s m e)
    = (if (min_timestamp * second <=? μ) && (μ <? (max_timestamp + 1) * second)
       then Ret μ else Raise TimestampOutOfRange) ∧
    ∀ c, (scaled_le (signed s (Z.pos m) * 1000000) e c → μ ≤ c) ∧
         (scaled_ge (signed s (Z.pos m) * 1000000) e c → c ≤ μ).
Proof.
  destruct (Z.leb_spec 0 e) as [He|He].
  { exists (signed s (Z.pos m * 2 ^ e) * second). split.
    - apply float_timestamp_whole. unfold modf.
      by replace (0 <=? e) with true by (symmetry; apply Z.leb_le; lia).
    - intros c. unfold scaled_le, scaled_ge, second.
      rewrite (Z.max_r 0 e), (Z.max_l 0 (- e)), Z.pow_0_r by lia.
      assert (0 < 2 ^ e) by (apply Z.pow_pos_nonneg; lia).
      destruct s; simpl; split; nia. }
  set (k := - e). assert (0 < k) as Hk by lia.
  assert (0 < 2 ^ k) as Hb by (apply Z.pow_pos_nonneg; lia).
  pose proof (Z.div_mod (Z.pos m) (2 ^ k) ltac:(lia)) as Hdiv.
  pose proof (Z.mod_pos_bound (Z.pos m) (2 ^ k) Hb) as Hr.
  assert (modf s m e
          = (signed s (Z.pos m / 2 ^ k),
             match Z.pos m mod 2 ^ k with
             | Z.pos r => S754_finite s r e
             | _ => S754_zero s
             end)) as Hmodf.
  { unfold modf. by replace (0 <=? e) with false by (symmetry; apply Z.leb_gt; lia). }
  set (q := Z.pos m / 2 ^ k) in *.
  assert (∀ c, (scaled_le (signed s (Z.pos m) * 1000000) e c
                ↔ signed s (Z.pos m) * 1000000 ≤ c * 2 ^ k) ∧
               (scaled_ge (signed s (Z.pos m) * 1000000) e c
                ↔ c * 2 ^ k ≤ signed s (Z.pos m) * 1000000)) as Hscaled.
  { intros c. unfold scaled_le, scaled_ge.
    rewrite (Z.max_l 0 e), (Z.max_r 0 (- e)), Z.pow_0_r by lia. fold k. lia. }
  destruct (Z.pos m mod 2 ^ k) as [|r|r] eqn:Hmod; [|clear Hmod|lia].
  { exists (signed s q * second). split; [by apply float_timestamp_whole|].
    intros c. destruct (Hscaled c) as [-> ->]. unfold second.
    destruct s; simpl; split; nia. }
  assert (Z.pos (digits2_pos (r * 15625)) + (e + 6) ≤ 20) as Hsmall.
  { assert (Zdigits2 (Z.pos (r * 15625)) ≤ k + 14) as Hd; [|simpl in Hd; lia].
    apply Zdigits2_le; [lia|lia|]. rewrite Z.pow_add_r by lia.
    change (2 ^ 14) with 16384. rewrite Pos2Z.inj_mul. lia. }
  destruct (rounded_product_bounds (xorb s false) (r * 15625) (e + 6) Hsmall ltac:(lia))
    as (u & Hround & Hu).
  assert (∀ j, (Z.pos r * 1000000 ≤ j * 2 ^ k → u ≤ j) ∧
               (j * 2 ^ k ≤ Z.pos r * 1000000 → j ≤ u)) as Hu'.
  { intros j. destruct (Hu j) as [Hlow Hhigh].
    destruct (scaled_product (Z.pos r) k j Hk) as [Hle Hge].
    replace (- k + 6) with (e + 6) in * by lia. rewrite Pos2Z.inj_mul in Hlow, Hhigh.
    split; intros Hj; [apply Hlow, Hle, Hj|apply Hhigh, Hge, Hj]. }
  assert (0 ≤ u ≤ 1000000) as Hrange.
  { split; [apply (Hu' 0); lia|apply (Hu' 1000000); lia]. }
  exists (signed s (q * second + u)). split.
  - unfold float_timestamp. rewrite Hmodf.
    change (SFmul float_prec float_emax (S754_finite s r e) million)
      with (binary_round_aux float_prec float_emax (xorb s false)
              (Z.pos (r * 15625)) (e + 6) loc_Exact).
    rewrite Hround. replace (xorb s false) with s by (by destruct s).
    pose proof (carry_spec (signed s q) (signed s u)) as Hcarry.
    destruct (if 1000000 <=? signed s u then _ else _) as [sec us'].
    destruct Hcarry as [Hsum Hus]. { destruct s; simpl; lia. }
    rewrite (in_range_seconds sec us' Hus), Hsum.
    by rewrite signed_mul, signed_add.
  - intros c. destruct (Hscaled c) as [-> ->]. unfold second.
    destruct s; simpl.
    + destruct (Hu' (- c - q * 1000000)) as [Hlow Hhigh]. split; intros Hc.
      * assert (- c - q * 1000000 ≤ u) by (apply Hhigh; nia). lia.
      * assert (u ≤ - c - q * 1000000) by (apply Hlow; nia). lia.
    + destruct (Hu' (c - q * 1000000)) as [Hlow Hhigh]. split; intros Hc.
      * assert (u ≤ c - q * 1000000) by (apply Hlow; nia). lia.
      * assert (c - q * 1000000 ≤ u) by (apply Hhigh; nia). lia.
Qed.

(** ** The age filter on any number *)

Lemma select_old_kept c bookmarks : ∀ old tr,
  Forall (λ bookmark, is_Some (moment_of bookmark)) bookmarks →
  select_old c bookmarks old tr = (tr, Ret (old ++ List.filter (kept c) bookmarks)).
Proof.
  induction bookmarks as [|b rest IH]; intros old tr Hall.
  - simpl. by rewrite app_nil_r.
  - apply Forall_cons in Hall as [[μ Hb] Hrest]. cbn [select_old List.filter].
    unfold kept. unfold moment_of in Hb |- *. exec.
    destruct (getitem b "time") as [t| |]; [|done..]. exec.
    destruct (fromtimestamp t) as [μ'| |]; [|done..]. exec.
    destruct (μ' <? c); rewrite IH by done; [by rewrite <- app_assoc|done].
Qed.

(** What the loop returns when it returns. *)
Lemma select_old_Ret c bookmarks : ∀ old tr tr' result,
  select_old c bookmarks old tr = (tr', Ret result) →
  result = old ++ List.filter (kept c) bookmarks ∧
  Forall (λ bookmark, is_Some (moment_of bookmark)) bookmarks.
Proof.
  induction bookmarks as [|b rest IH]; intros old tr tr' result.
  - simpl. intros [= _ <-]. by rewrite app_nil_r.
  - cbn [select_old List.filter]. unfold kept at 1. unfold moment_of at 1. exec.
    destruct (getitem b "time") as [t| |] eqn:Hget; [|done..]. exec.
    destruct (fromtimestamp t) as [μ| |] eqn:Hfrom; [|done..]. exec.
    assert (is_Some (moment_of b)) as Hb by (unfold moment_of; rewrite Hget, Hfrom; by eexists).
    destruct (μ <? c); intros Hrun; apply IH in Hrun as [-> Hrest].
    + split; [by rewrite <- app_assoc|by constructor].
    + split; [done|by constructor].
Qed.

Lemma compare_sides (a c : Z) :
  ((Some (a ?= c) = Some Lt ∨ Some (a ?= c) = Some Eq) ↔ a ≤ c) ∧
  ((Some (a ?= c) = Some Eq ∨ Some (a ?= c) = Some Gt) ↔ c ≤ a).
Proof.
  destruct (Z.compare_spec a c) as [Heq|Hlt|Hgt]; split; split;
    try (intros [[=]|[=]]; lia); intros Hle; try lia; auto.
Qed.

Lemma seconds_cmp_finite s m e c :
  (at_most (VFloat (S754_finite s m e)) c ↔ scaled_le (signed s (Z.pos m) * 1000000) e c) ∧
  (at_least (VFloat (S754_finite s m e)) c ↔ scaled_ge (signed s (Z.pos m) * 1000000) e c).
Proof. apply compare_sides. Qed.

(** The instant of a record against its [time]: equal for a whole number
    of seconds, and for a float on the same side of every whole
    microsecond. *)
Lemma moment_bounds bookmark t μ :
  time_field bookmark = Some t → moment_of bookmark = Some μ →
  (∀ n, t = VInt n → μ = n * 1000000) ∧
  ∀ c, (at_most t c → μ ≤ c) ∧ (at_least t c → c ≤ μ).
Proof.
  intros Ht Hμ. destruct bookmark as [| | | | | |items]; try discriminate.
  simpl in Ht. unfold moment_of, getitem in Hμ. rewrite Ht in Hμ.
  destruct t as [|b|n|x| | |]; try discriminate.
  - simpl in Hμ. injection Hμ as <-. split; [done|]. intros c. unfold second.
    destruct (compare_sides (Z.b2z b * 1000000) c) as [Hle Hge].
    split; intros Hc; [by apply Hle|by apply Hge].
  - simpl in Hμ. destruct (_ && _); [|done]. injection Hμ as <-. unfold second. split.
    + by intros n' [= ->].
    + intros c. destruct (compare_sides (n * 1000000) c) as [Hle Hge].
      split; intros Hc; [by apply Hle|by apply Hge].
  - split; [done|]. intros c. simpl in Hμ. destruct x as [s| | |s m e]; try done.
    + simpl in Hμ. injection Hμ as <-. destruct (compare_sides 0 c) as [Hle Hge].
      split; intros Hc; [by apply Hle|by apply Hge].
    + destruct (float_timestamp_finite s m e) as (μ' & Hrun & Hbounds).
      rewrite Hrun in Hμ. destruct (_ && _); [|done]. injection Hμ as <-.
      destruct (seconds_cmp_finite s m e c) as [Hle Hge].
      split; intros Hc; [by apply Hbounds, Hle|by apply Hbounds, Hge].
Qed.

(** A dated record has an instant. *)
Lemma dated_moment bookmark : dated bookmark → is_Some (moment_of bookmark).
Proof.
  intros (t & Ht & Hmin & Hmax). destruct bookmark as [| | | | | |items]; try discriminate.
  simpl in Ht. unfold moment_of, getitem. rewrite Ht.
  destruct t as [|b|n|x| | |];
    try (destruct Hmin as [Hmin|Hmin]; discriminate Hmin).
  - by eexists.
  - simpl. apply compare_sides in Hmin, Hmax.
    replace ((min_timestamp <=? n) && (n <=? max_timestamp)) with true; [by eexists|].
    symmetry; apply andb_true_iff; split; apply Z.leb_le; lia.
  - destruct x as [s| | |s m e];
      try (destruct Hmin as [Hmin|Hmin]; discriminate Hmin).
    + by eexists.
    + cbn [fromtimestamp]. destruct (float_timestamp_finite s m e) as (μ & -> & Hbounds).
      apply seconds_cmp_finite, Hbounds in Hmin. apply seconds_cmp_finite, Hbounds in Hmax.
      replace ((min_timestamp * second <=? μ) && (μ <? (max_timestamp + 1) * second)) with true;
        [by eexists|].
      symmetry. apply andb_true_iff. unfold second. split; [apply Z.leb_le|apply Z.ltb_lt]; lia.
Qed.

Lemma float_timestamp_no_exit x code : float_timestamp x ≠ Exit code.
Proof.
  destruct x as [s| | |s m e]; try done. unfold float_timestamp.
  destruct (modf s m e) as [intpart floatpart].
  destruct (if 1000000 <=? _ then _ else _) as [sec us]. by destruct (_ && _).
Qed.

Lemma fromtimestamp_no_exit t code : fromtimestamp t ≠ Exit code.
Proof.
  destruct t; try done.
  - simpl. by destruct (_ && _).
  - apply float_timestamp_no_exit.
Qed.

Lemma getitem_no_exit obj key code : getitem obj key ≠ Exit code.
Proof. destruct obj; try done. simpl. by destruct (lookup_item key items). Qed.

Lemma main_old_bookmarks_kept w bookmarks tr :
  min_timestamp * 1000000 ≤ now w - 7 * 86400 * 1000000 →
  Forall (λ bookmark, is_Some (moment_of bookmark)) bookmarks →
  main_old_bookmarks w (VList bookmarks) tr
  = (tr, Ret (List.filter (kept (now w - 7 * 86400 * 1000000)) bookmarks)).
Proof.
  intros Hclock Hall. unfold main_old_bookmarks. exec. unfold datetime_sub, days, second.
  replace (min_timestamp * 1000000 <=? now w - 7 * 86400 * 1000000) with true
    by (symmetry; apply Z.leb_le; lia).
  exec. simpl iter. exec. by rewrite select_old_kept.
Qed.

(** C1.  Lines 122-130 of [main], on a listed working set whose records
    carry a number for [time] that [datetime] can represent.  The records
    kept are, in order, those whose instant lies before the clock reading
    minus seven days.  For a [time] that is a whole number of seconds the
    record is kept if and only if its time is strictly less than the
    cutoff, and a record exactly at the cutoff is not kept.  A [time] with
    a fraction is rounded to the microsecond first: the record is kept
    when its time is at least one microsecond before the cutoff, it is not
    kept when its time is at or after the cutoff, and every record kept
    has a time strictly before the cutoff. *)
Theorem strict_age_filter w bookmarks tr :
  min_timestamp * 1000000 ≤ now w - 7 * 86400 * 1000000 →
  Forall dated bookmarks →
  ∃ old_bookmarks,
    main_old_bookmarks w (VList bookmarks) tr = (tr, Ret old_bookmarks) ∧
    old_bookmarks = List.filter (kept (now w - 7 * 86400 * 1000000)) bookmarks ∧
    ∀ bookmark t, bookmark ∈ bookmarks → time_field bookmark = Some t →
      (∀ n, t = VInt n →
         (bookmark ∈ old_bookmarks ↔ n * 1000000 < now w - 7 * 86400 * 1000000) ∧
         (n * 1000000 = now w - 7 * 86400 * 1000000 → bookmark ∉ old_bookmarks)) ∧
      (at_most t (now w - 7 * 86400 * 1000000 - 1) → bookmark ∈ old_bookmarks) ∧
      (at_least t (now w - 7 * 86400 * 1000000) → bookmark ∉ old_bookmarks) ∧
      (bookmark ∈ old_bookmarks → seconds_cmp t (now w - 7 * 86400 * 1000000) = Some Lt).
Proof.
  intros Hclock Hall. set (c := now w - 7 * 86400 * 1000000) in *.
  eexists. split; [|split; [reflexivity|]].
  { apply main_old_bookmarks_kept; [done|]. eapply Forall_impl; [exact Hall|]. apply dated_moment. }
  intros b t Hin Ht.
  assert (dated b) as Hb by (rewrite Forall_forall in Hall; by apply Hall).
  destruct (dated_moment b Hb) as [μ Hμ].
  destruct (moment_bounds b t μ Ht Hμ) as [Hwhole Hbounds].
  assert (b ∈ List.filter (kept c) bookmarks ↔ μ < c) as Hiff.
  { rewrite list_elem_of_In, filter_In, <- list_elem_of_In.
    unfold kept. rewrite Hμ. rewrite Z.ltb_lt. tauto. }
  assert (at_least t c → b ∉ List.filter (kept c) bookmarks) as Hlate.
  { intros Hc. rewrite Hiff. apply Hbounds in Hc. lia. }
  split; [|split; [|split]].
  - intros n Hn. rewrite Hiff, (Hwhole n Hn). split; [done|lia].
  - intros Hc. apply Hiff. apply Hbounds in Hc. lia.
  - exact Hlate.
  - intros Hkept. destruct (seconds_cmp t c) as [[| |]|] eqn:Hcmp; [|done| |].
    + destruct Hlate; [by left|done].
    + destruct Hlate; [by right|done].
    + destruct Hb as (t' & Ht' & [Hmin|Hmin] & _); rewrite Ht in Ht'; injection Ht' as <-;
        destruct t as [| | |[]| | |]; discriminate.
Qed.

Lemma strict_age_filter_witness :
  main_old_bookmarks scenario_fractional (VList mixed_bookmarks) []
  = ([], Ret [record 1 1699999999 "Older";
              float_record 5 half_second_before "Half a second"]) ∧
  (∀ n, VInt 1700000000 = VInt n →
     (record 2 1700000000 "At the cutoff"
        ∈ [record 1 1699999999 "Older"; float_record 5 half_second_before "Half a second"]
      ↔ n * 1000000 < now scenario_fractional - 7 * 86400 * 1000000) ∧
     (n * 1000000 = now scenario_fractional - 7 * 86400 * 1000000 →
      record 2 1700000000 "At the cutoff"
        ∉ [record 1 1699999999 "Older"; float_record 5 half_second_before "Half a second"])).
Proof.
  destruct (strict_age_filter scenario_fractional mixed_bookmarks [])
    as (old_bookmarks & Hrun & Hold & Hrecords).
  - vm_compute. discriminate.
  - repeat constructor; eexists; (split; [reflexivity|]); split; vm_compute; auto.
  - vm_compute in Hold. subst old_bookmarks. split; [exact Hrun|].
    apply (Hrecords (record 2 1700000000 "At the cutoff") (VInt 1700000000)); [|reflexivity].
    apply (list_elem_of_lookup_2 _ 3%nat). reflexivity.
Defined.

(** The rule "kept if and only if the time is strictly less than the
    cutoff" fails for a time with a fraction.  In the example listing the
    third record carries the float next below the cutoff, a quarter of a
    microsecond before it: strictly less than the cutoff, and yet the
    record is not among those kept, because rounding to the microsecond
    makes its instant the cutoff itself. *)
Lemma fractional_time_is_not_selected :
  float_record 6 just_before "A quarter of a microsecond" ∈ mixed_bookmarks ∧
  time_field (float_record 6 just_before "A quarter of a microsecond")
  = Some (VFloat just_before) ∧
  seconds_cmp (VFloat just_before) (now scenario_fractional - 7 * 86400 * 1000000) = Some Lt ∧
  main_old_bookmarks scenario_fractional (VList mixed_bookmarks) []
  = ([], Ret [record 1 1699999999 "Older";
              float_record 5 half_second_before "Half a second"]).
Proof.
  split; [|by repeat split]. apply (list_elem_of_lookup_2 _ 2%nat). reflexivity.
Qed.

(** ** The bookmark lister *)

(** C6.  On a listing response with status 200 whose body decodes to an
    array, the lister returns the elements from position 1 on, whatever
    the first element is, and the empty list when the array has at most
    one element. *)
Theorem lister_skips_first w oauth_session tr l :
  let resp := http w (sent tr) (list_request oauth_session) in
  status_code resp = 200 →
  json resp = Some (VList l) →
  get_newsletter_bookmarks w oauth_session tr
  = (tr ++ [Post (list_request oauth_session) resp], Ret (VList (drop 1 l))) ∧
  ((length l ≤ 1)%nat →
   (get_newsletter_bookmarks w oauth_session tr).2 = Ret (VList [])).
Proof.
  intros resp Hstatus Hjson.
  assert (get_newsletter_bookmarks w oauth_session tr
          = (tr ++ [Post (list_request oauth_session) resp], Ret (VList (drop 1 l)))) as Hrun.
  { unfold get_newsletter_bookmarks. exec.
    fold list_url. fold (list_request oauth_session). fold resp.
    replace (negb (status_code resp =? 200)) with false by (by rewrite Hstatus).
    rewrite Hjson. exec. simpl len. exec.
    destruct (Z.ltb_spec 1 (Z.of_nat (length l))) as [Hlt|Hle]; exec.
    - destruct l; [simpl in Hlt; lia | reflexivity].
    - destruct l as [|acct [|b rest]]; simpl in *; (reflexivity || lia). }
  split; [exact Hrun|]. intros Hlen. rewrite Hrun. simpl.
  destruct l as [|acct [|b rest]]; simpl in *; (reflexivity || lia).
Qed.

Lemma lister_skips_first_witness :
  get_newsletter_bookmarks scenario_a example_session []
  = ([Post (list_request example_session) (listing_of three_bookmarks)],
     Ret (VList three_bookmarks)) ∧
  ((length (account :: three_bookmarks) ≤ 1)%nat →
   (get_newsletter_bookmarks scenario_a example_session []).2 = Ret (VList [])).
Proof.
  apply (lister_skips_first scenario_a example_session [] (account :: three_bookmarks));
    reflexivity.
Defined.

(** ** Splitting and the token dictionary *)

Lemma split_nonempty c s : split c s ≠ [].
Proof. destruct s as [|c' s']; simpl; [done|]. destruct (decide _); [done|]. by destruct (split c s'). Qed.

Lemma split_length c s : length (split c s) = S (count_char c s).
Proof.
  induction s as [|c' s' IH]; simpl; [done|].
  destruct (decide (c' = c)); simpl; [by rewrite IH|].
  destruct (split c s'); simpl in *; done.
Qed.

Lemma split_no_sep c s : count_char c s = 0%nat → split c s = [s].
Proof.
  induction s as [|c' s' IH]; simpl; [done|].
  destruct (decide (c' = c)); [done|]. intros H. by rewrite IH.
Qed.

Lemma split_prefix c p s :
  count_char c p = 0%nat → split c (p +:+ String c s) = p :: split c s.
Proof.
  induction p as [|c' p' IH]; simpl.
  - intros _. by destruct (decide (c = c)).
  - destruct (decide (c' = c)); [done|]. intros H. by rewrite IH.
Qed.

Lemma split_two c s k v :
  split c s = [k; v] → s = k +:+ String c v.
Proof.
  revert k. induction s as [|c' s' IH]; intros k; simpl; [done|].
  destruct (decide (c' = c)) as [->|Hne].
  - intros [= <- Hrest].
    assert (count_char c s' = 0%nat) as H0.
    { pose proof (split_length c s') as Hl. rewrite Hrest in Hl. simpl in Hl. lia. }
    rewrite split_no_sep in Hrest by done. injection Hrest as ->. reflexivity.
  - destruct (split c s') as [|p ps] eqn:Hs; [done|].
    intros [= <- ->]. by rewrite (IH p eq_refl) at 1.
Qed.

Lemma count_char_app c s t :
  count_char c (s +:+ t) = (count_char c s + count_char c t)%nat.
Proof. induction s as [|c' s' IH]; simpl; [done|]. rewrite IH. lia. Qed.

(** A segment [key=v] with a single [=] splits into [key] and [v]. *)
Lemma split_key_value key v :
  count_char "=" key = 0%nat →
  count_char "=" (key +:+ String "=" v) = 1%nat →
  split "=" (key +:+ String "=" v) = [key; v].
Proof.
  intros Hk H1. rewrite split_prefix by done. f_equal.
  apply split_no_sep. rewrite count_char_app in H1. simpl in H1. lia.
Qed.

Lemma dict_update_ok d seqs :
  Forall (λ seq, length seq = 2%nat) seqs →
  ∃ d', dict_update d seqs = Ret d' ∧
        ∀ key, is_Some (d' !! key) ↔ is_Some (d !! key) ∨ ∃ v, [key; v] ∈ seqs.
Proof.
  intros Hall. revert d. induction Hall as [|seq rest Hlen _ IH]; intros d.
  - exists d. split; [done|]. intros key. split; [by left|]. intros [?|[v Hv]]; [done|].
    by apply elem_of_nil in Hv.
  - destruct seq as [|k [|v [|]]]; try discriminate. simpl.
    destruct (IH (<[k:=v]> d)) as (d' & Hrun & Hkeys). exists d'. split; [done|].
    intros key. rewrite Hkeys. destruct (decide (k = key)) as [->|Hne].
    + rewrite lookup_insert_eq. split; [|by eauto]. intros _. right. exists v. by left.
    + rewrite lookup_insert_ne by done. split.
      * intros [?|[v' Hv']]; [by left|]. right. exists v'. by right.
      * intros [?|[v' Hv']]; [by left|]. right. exists v'.
        apply elem_of_cons in Hv' as [[= ]|]; done.
Qed.

Lemma dict_update_bad d seqs :
  ¬ Forall (λ seq, length seq = 2%nat) seqs → dict_update d seqs = Raise ValueError.
Proof.
  revert d. induction seqs as [|seq rest IH]; intros d Hbad.
  - by destruct Hbad.
  - destruct seq as [|k [|v [|]]]; try done. simpl. apply IH. intros Hrest.
    apply Hbad. by constructor.
Qed.

Lemma segments_lengths segs :
  Forall (λ segment, count_char "=" segment = 1%nat) segs ↔
  Forall (λ seq : list string, length seq = 2%nat) (map (split "=") segs).
Proof.
  rewrite Forall_map. apply Forall_iff. intros seg. simpl.
  rewrite split_length. lia.
Qed.

Lemma key_among_segments key segs :
  count_char "=" key = 0%nat →
  Forall (λ segment, count_char "=" segment = 1%nat) segs →
  (∃ v, [key; v] ∈ map (split "=") segs) ↔ (∃ v, key +:+ String "=" v ∈ segs).
Proof.
  intros Hkey Hall. split; intros [v Hv]; exists v.
  - apply list_elem_of_fmap in Hv as (seg & Hsplit & Hin).
    symmetry in Hsplit. apply split_two in Hsplit. by subst seg.
  - apply list_elem_of_fmap. eexists. split; [|exact Hv].
    symmetry. apply split_key_value; [done|].
    rewrite Forall_forall in Hall. by apply Hall.
Qed.

Lemma get_access_token_200 w username password consumer_key consumer_secret tr :
  let req := token_request username password consumer_key consumer_secret in
  let resp := http w (sent tr) req in
  status_code resp = 200 →
  get_access_token w username password consumer_key consumer_secret tr
  = (tr ++ [Post req resp],
     match dict (map (split "=") (split "&" (text resp))) with
     | Ret tokens =>
         match subscript tokens "oauth_token" with
         | Ret oauth_token =>
             match subscript tokens "oauth_token_secret" with
             | Ret oauth_token_secret => Ret (oauth_token, oauth_token_secret)
             | Exit code => Exit code
             | Raise e => Raise e
             end
         | Exit code => Exit code
         | Raise e => Raise e
         end
     | Exit code => Exit code
     | Raise e => Raise e
     end).
Proof.
  intros req resp Hstatus. unfold get_access_token. exec.
  fold token_url. fold (token_request username password consumer_key consumer_secret).
  fold req. fold resp.
  replace (negb (status_code resp =? 200)) with false by (by rewrite Hstatus).
  exec. destruct (dict _) as [tokens| |]; exec; [|done..].
  destruct (subscript tokens "oauth_token"); exec; [|done..].
  destruct (subscript tokens "oauth_token_secret"); exec; done.
Qed.

Lemma get_access_token_parse w username password consumer_key consumer_secret tr :
  let req := token_request username password consumer_key consumer_secret in
  let resp := http w (sent tr) req in
  let result := get_access_token w username password consumer_key consumer_secret tr in
  status_code resp = 200 →
  result.1 = tr ++ [Post req resp] ∧
  (well_formed_token_body (text resp) ↔ ∃ tokens, result.2 = Ret tokens) ∧
  (¬ well_formed_token_body (text resp) →
   (result.2 = Raise ValueError ∨ ∃ key, result.2 = Raise (KeyError key)) ∧
   exit_status result.2 = 1).
Proof.
  intros req resp result Hstatus. subst result.
  rewrite (get_access_token_200 _ _ _ _ _ _ Hstatus). fold req. fold resp. simpl.
  split; [done|].
  set (segs := split "&" (text resp)).
  assert (well_formed_token_body (text resp) ↔
          Forall (λ segment, count_char "=" segment = 1%nat) segs ∧
          (∃ v, [ "oauth_token"; v] ∈ map (split "=") segs) ∧
          (∃ v, [ "oauth_token_secret"; v] ∈ map (split "=") segs)) as Hshape.
  { unfold well_formed_token_body. fold segs. split; intros (Hall & H1 & H2).
    - split; [done|]. split; by apply key_among_segments.
    - split; [done|]. split.
      + by apply (key_among_segments "oauth_token") in H1.
      + by apply (key_among_segments "oauth_token_secret") in H2. }
  rewrite Hshape. clear Hshape.
  destruct (decide (Forall (λ seq : list string, length seq = 2%nat) (map (split "=") segs)))
    as [Hlen|Hlen].
  - destruct (dict_update_ok ∅ _ Hlen) as (tokens & Hdict & Hkeys).
    unfold dict. rewrite Hdict. apply segments_lengths in Hlen.
    assert (∀ key, is_Some (tokens !! key) ↔ ∃ v, [key; v] ∈ map (split "=") segs) as Hkey.
    { intros key. rewrite Hkeys, lookup_empty. split; [|by right].
      intros [[? [=]]|?]; done. }
    unfold subscript.
    destruct (tokens !! "oauth_token") as [t|] eqn:Ht.
    + destruct (tokens !! "oauth_token_secret") as [s|] eqn:Hs.
      * split; [|intros Hbad; destruct Hbad].
        -- split; [by eauto|]. intros _. split; [done|]. rewrite <- !Hkey, Ht, Hs. by eauto.
        -- repeat split; [done|rewrite <- Hkey, Ht|rewrite <- Hkey, Hs]; by eauto.
      * split.
        -- split; [|by intros [? [=]]]. intros (_ & _ & H2). apply Hkey in H2.
           rewrite Hs in H2. by destruct H2.
        -- intros _. split; [right; by eauto|done].
    + split.
      * split; [|by intros [? [=]]]. intros (_ & H1 & _). apply Hkey in H1.
        rewrite Ht in H1. by destruct H1.
      * intros _. split; [right; by eauto|done].
  - unfold dict. rewrite dict_update_bad by done. split.
    + split; [|by intros [? [=]]]. intros (Hall & _). by apply segments_lengths in Hall.
    + intros _. split; [by left|done].
Qed.

(** ** Paths of the straight-line code

    Outside its two loops the script is a finite tree of branches.  [paths]
    walks it, splitting on the innermost test that blocks execution, and
    [emitted] shows that what a path appended to the trace is quiet. *)

Ltac paths :=
  repeat (exec;
          try match goal with
              | |- context [match ?x with _ => _ end] =>
                  lazymatch x with
                  | context [match _ with _ => _ end] => fail
                  | _ => destruct x eqn:?
                  end
              end).

Ltac emitted :=
  simpl; eexists; split;
  [ rewrite <- ?app_assoc; simpl; try reflexivity; symmetry; apply app_nil_r
  | repeat constructor ].

Lemma main_session_quiet w tr :
  ∃ evs, (main_session w tr).1 = tr ++ evs ∧ Forall (λ e, quiet e = true) evs.
Proof.
  unfold main_session, load_config, get_access_token. paths; emitted.
Qed.

Lemma get_newsletter_bookmarks_quiet w sess tr :
  ∃ evs, (get_newsletter_bookmarks w sess tr).1 = tr ++ evs ∧ Forall (λ e, quiet e = true) evs.
Proof.
  unfold get_newsletter_bookmarks. paths; emitted.
Qed.

(** ** The archiving loop *)

Lemma attempts_post r resp evs :
  url r = archive_url → attempts (Post r resp :: evs) = resp :: attempts evs.
Proof. intros H. unfold attempts. simpl. by rewrite decide_True. Qed.

Lemma attempts_print f l evs : attempts (Print f l :: evs) = attempts evs.
Proof. reflexivity. Qed.

Lemma attempts_app tr1 tr2 : attempts (tr1 ++ tr2) = attempts tr1 ++ attempts tr2.
Proof. apply omap_app. Qed.

Lemma attempts_quiet evs : Forall (λ e, quiet e = true) evs → attempts evs = [].
Proof.
  induction 1 as [|e evs He _ IH]; [done|].
  destruct e as [f l|r resp]; [done|].
  simpl in He. apply negb_true_iff, bool_decide_eq_false in He.
  unfold attempts in *. simpl. by rewrite decide_False.
Qed.

Lemma archive_bookmark_run w sess bookmark_id tr :
  archive_bookmark w sess bookmark_id tr
  = (tr ++ [Post (archive_request sess bookmark_id)
                 (http w (sent tr) (archive_request sess bookmark_id))],
     Ret (succeeded (http w (sent tr) (archive_request sess bookmark_id)))).
Proof. reflexivity. Qed.

(** Whatever the records are, the loop only appends its own events, never
    exits, and returns counters that grew by the successes and failures it
    recorded. *)
Lemma archive_all_events w sess old : ∀ a f tr,
  ∃ evs, (archive_all w sess old a f tr).1 = tr ++ evs ∧
         Forall (λ e, loop_event e = true) evs ∧
         match (archive_all w sess old a f tr).2 with
         | Ret (a', f') => a' = a + successes evs ∧ f' = f + failures evs
         | Exit _ => False
         | Raise _ => True
         end.
Proof.
  induction old as [|bookmark rest IH]; intros a f tr.
  - exists []. simpl. rewrite app_nil_r. repeat split; [constructor|..]; unfold successes, failures; simpl; lia.
  - cbn [archive_all]. rewrite bind_run, lift_run.
    assert (∀ e, ∃ evs : trace, (tr, @Raise (Z * Z) e).1 = tr ++ evs ∧
              Forall (λ e, loop_event e = true) evs ∧
              match (tr, @Raise (Z * Z) e).2 with
              | Ret (a', f') => a' = a + successes evs ∧ f' = f + failures evs
              | Exit _ => False
              | Raise _ => True
              end) as Hraise.
    { intros e. exists []. simpl. by rewrite app_nil_r. }
    destruct bookmark as [| | | | | |items]; simpl getitem; exec; try apply Hraise.
    destruct (lookup_item "bookmark_id" items) as [bookmark_id|]; exec; [|apply Hraise].
    simpl get. set (title := default (VStr "Untitled") (lookup_item "title" items)).
    exec. rewrite archive_bookmark_run. cbv beta iota.
    set (resp := http w (sent tr) (archive_request sess bookmark_id)).
    destruct (succeeded resp) eqn:Hok; exec; rewrite <- app_assoc; simpl app.
    + destruct (IH (a + 1) f (tr ++ [Post (archive_request sess bookmark_id) resp;
                       Print Stdout [Lit "✓ Archived: "; fmt title]])) as (evs & Htr & Hev & Hcount).
      eexists (_ :: _ :: evs). rewrite Htr, <- app_assoc. split; [done|].
      split; [by repeat constructor|].
      destruct (archive_all _ _ _ _ _ _).2 as [[a' f']| |]; [|done..].
      unfold successes, failures in *. rewrite attempts_post, attempts_print by done.
      simpl. rewrite Hok. simpl. lia.
    + destruct (IH a (f + 1) (tr ++ [Post (archive_request sess bookmark_id) resp;
                       Print Stderr [Lit "✗ Failed to archive: "; fmt title]])) as (evs & Htr & Hev & Hcount).
      eexists (_ :: _ :: evs). rewrite Htr, <- app_assoc. split; [done|].
      split; [by repeat constructor|].
      destruct (archive_all _ _ _ _ _ _).2 as [[a' f']| |]; [|done..].
      unfold successes, failures in *. rewrite attempts_post, attempts_print by done.
      simpl. rewrite Hok. simpl. lia.
Qed.

Lemma id_title bookmark bookmark_id :
  id_of bookmark = Some bookmark_id →
  getitem bookmark "bookmark_id" = Ret bookmark_id ∧
  get bookmark "title" (VStr "Untitled") = Ret (title_of bookmark).
Proof.
  destruct bookmark; try discriminate. simpl. by intros ->.
Qed.

Lemma archive_all_step w sess bookmark bookmark_id rest a f tr :
  id_of bookmark = Some bookmark_id →
  let resp := http w (sent tr) (archive_request sess bookmark_id) in
  archive_all w sess (bookmark :: rest) a f tr
  = archive_all w sess rest
      (if succeeded resp then a + 1 else a) (if succeeded resp then f else f + 1)
      (tr ++ [Post (archive_request sess bookmark_id) resp; attempt_log bookmark resp]).
Proof.
  intros Hid resp. destruct (id_title _ _ Hid) as [Hget Htitle].
  cbn [archive_all]. rewrite bind_run, lift_run, Hget.
  rewrite bind_run, lift_run, Htitle.
  rewrite bind_run, archive_bookmark_run. fold resp. unfold attempt_log.
  destruct (succeeded resp); rewrite bind_run, print_run, <- app_assoc; reflexivity.
Qed.

(** C9.  An archive attempt is a success exactly when the status code of
    the archive endpoint is 200: [archive_bookmark] returns that test, and
    the loop adds one to [archived_count] on 200 and one to [failed_count]
    on any other status, 201 and 204 included. *)
Theorem only_200_counts_as_archived w sess bookmark bookmark_id a f tr :
  id_of bookmark = Some bookmark_id →
  let resp := http w (sent tr) (archive_request sess bookmark_id) in
  (archive_bookmark w sess bookmark_id tr).2 = Ret (succeeded resp) ∧
  (succeeded resp = true ↔ status_code resp = 200) ∧
  (status_code resp = 200 →
   (archive_all w sess [bookmark] a f tr).2 = Ret (a + 1, f)) ∧
  (status_code resp ≠ 200 →
   (archive_all w sess [bookmark] a f tr).2 = Ret (a, f + 1)).
Proof.
  intros Hid resp. split; [reflexivity|].
  assert (succeeded resp = true ↔ status_code resp = 200) as Hiff
    by apply Z.eqb_eq.
  split; [exact Hiff|].
  rewrite (archive_all_step _ _ _ _ _ _ _ _ Hid). fold resp. simpl.
  split; intros Hs.
  - apply Hiff in Hs. by rewrite Hs.
  - destruct (succeeded resp); [|done]. by destruct Hs; apply Hiff.
Qed.

Lemma only_200_counts_as_archived_witness :
  let resp := http scenario_no_content [] (archive_request example_session (VInt 1)) in
  (archive_bookmark scenario_no_content example_session (VInt 1) []).2 = Ret (succeeded resp) ∧
  (succeeded resp = true ↔ status_code resp = 200) ∧
  (status_code resp = 200 →
   (archive_all scenario_no_content example_session
      [record 1 1699999999 "Older"] 0 0 []).2 = Ret (0 + 1, 0)) ∧
  (status_code resp ≠ 200 →
   (archive_all scenario_no_content example_session
      [record 1 1699999999 "Older"] 0 0 []).2 = Ret (0, 0 + 1)).
Proof.
  apply (only_200_counts_as_archived scenario_no_content example_session
           (record 1 1699999999 "Older") (VInt 1) 0 0 []).
  reflexivity.
Defined.

(** ** The shape of a whole run *)

Lemma quiet_no_summary e : quiet e = true → no_summary e = true.
Proof. by destruct e. Qed.

Lemma loop_event_no_summary e : loop_event e = true → no_summary e = true.
Proof.
  destruct e as [f l|]; [|done]. simpl. intros H%Nat.eqb_eq. by rewrite H.
Qed.

Lemma no_summary_not_elem evs a f :
  Forall (λ e, no_summary e = true) evs → Print Stdout (summary a f) ∉ evs.
Proof.
  intros Hall Hin. rewrite Forall_forall in Hall. by apply Hall in Hin.
Qed.

Lemma select_old_trace cutoff_time bookmarks : ∀ old tr,
  (select_old cutoff_time bookmarks old tr).1 = tr.
Proof.
  induction bookmarks as [|b rest IH]; intros old tr; [done|].
  cbn [select_old]. exec. destruct (getitem b "time"); exec; [|done..].
  destruct (fromtimestamp a); exec; [|done..].
  destruct (a0 <? cutoff_time); apply IH.
Qed.

Lemma main_old_bookmarks_trace w bookmarks tr :
  (main_old_bookmarks w bookmarks tr).1 = tr.
Proof.
  unfold main_old_bookmarks. exec.
  destruct (datetime_sub _ _); exec; [|done..].
  destruct (iter bookmarks); exec; [|done..].
  apply select_old_trace.
Qed.

(** Lines 122-156 either end with the summary, after the loop has run to
    its end, or print no summary at all. *)
Lemma main_archive_shape w sess bookmarks tr :
  (∃ found evs a f,
     (main_archive w sess bookmarks tr).1
       = tr ++ [found] ++ evs ++ [Print Stdout (summary a f)] ∧
     quiet found = true ∧
     Forall (λ e, loop_event e = true) evs ∧
     a = successes evs ∧ f = failures evs ∧
     (main_archive w sess bookmarks tr).2 = if 0 <? f then Exit 1 else Ret tt) ∨
  (∃ evs, (main_archive w sess bookmarks tr).1 = tr ++ evs ∧
          Forall (λ e, no_summary e = true) evs).
Proof.
  unfold main_archive. rewrite bind_run.
  pose proof (main_old_bookmarks_trace w bookmarks tr) as Htr.
  destruct (main_old_bookmarks w bookmarks tr) as [tr1 [old| |e]]; simpl in Htr; subst tr1.
  2,3: right; exists []; simpl; by rewrite app_nil_r.
  exec. destruct old as [|b rest].
  { exec. right. simpl. eexists. rewrite <- app_assoc. split; [done|]. by repeat constructor. }
  exec. set (found := Print Stdout _). set (old := b :: rest).
  destruct (archive_all_events w sess old 0 0 (tr ++ [found])) as (evs & Hevs & Hloop & Hcount).
  destruct (archive_all w sess old 0 0 (tr ++ [found])) as [tr2 [[a f]| |e]];
    simpl in Hevs, Hcount; subst tr2; exec.
  - left. exists found, evs, a, f. destruct Hcount as [Ha Hf].
    split; [|split; [done|split; [done|split; [lia|split; [lia|]]]]].
    + destruct (0 <? f); exec; simpl; by rewrite <- !app_assoc.
    + destruct (0 <? f); exec; done.
  - done.
  - right. exists (found :: evs). simpl. rewrite <- app_assoc. split; [done|].
    constructor; [done|]. eapply Forall_impl; [exact Hloop|]. apply loop_event_no_summary.
Qed.

Lemma Forall_no_summary_quiet evs :
  Forall (λ e, quiet e = true) evs → Forall (λ e, no_summary e = true) evs.
Proof. intros H. eapply Forall_impl; [exact H|]. apply quiet_no_summary. Qed.

(** The same alternative for a whole run; before the loop nothing is sent
    to the archive endpoint. *)
Lemma run_shape w :
  (∃ pre evs a f,
     (run w).1 = pre ++ evs ++ [Print Stdout (summary a f)] ∧
     Forall (λ e, quiet e = true) pre ∧
     Forall (λ e, loop_event e = true) evs ∧
     a = successes evs ∧ f = failures evs ∧
     (run w).2 = if 0 <? f then Exit 1 else Ret tt) ∨
  Forall (λ e, no_summary e = true) (run w).1.
Proof.
  unfold run, main. rewrite bind_run.
  destruct (main_session_quiet w []) as (evs1 & Hevs1 & Hq1).
  destruct (main_session w []) as [tr1 [sess| |e]]; simpl in Hevs1; subst tr1.
  2,3: right; by apply Forall_no_summary_quiet.
  unfold main_bookmarks. exec. set (fetching := Print Stdout _).
  destruct (get_newsletter_bookmarks_quiet w sess (evs1 ++ [fetching])) as (evs2 & Hevs2 & Hq2).
  assert (Forall (λ e, quiet e = true) ((evs1 ++ [fetching]) ++ evs2)) as Hq12.
  { apply Forall_app. split; [|done]. apply Forall_app. split; [done|]. by repeat constructor. }
  destruct (get_newsletter_bookmarks w sess (evs1 ++ [fetching])) as [tr2 [bookmarks| |e]];
    simpl in Hevs2; subst tr2; exec.
  2,3: right; by apply Forall_no_summary_quiet.
  destruct (len bookmarks) as [n| |e]; exec.
  2,3: right; by apply Forall_no_summary_quiet.
  set (found := Print Stdout _).
  assert (Forall (λ e, quiet e = true) (((evs1 ++ [fetching]) ++ evs2) ++ [found])) as Hq.
  { apply Forall_app. split; [done|]. by repeat constructor. }
  destruct (negb (truthy bookmarks)); exec.
  { right. simpl. apply Forall_app. split; [by apply Forall_no_summary_quiet|].
    by repeat constructor. }
  destruct (main_archive_shape w sess bookmarks (((evs1 ++ [fetching]) ++ evs2) ++ [found]))
    as [(found' & evs & a & f & Htr & Hfound & Hloop & Ha & Hf & Hout)|(evs & Htr & Hno)].
  - left. exists ((((evs1 ++ [fetching]) ++ evs2) ++ [found]) ++ [found']), evs, a, f.
    split; [by rewrite Htr, <- !app_assoc|].
    split; [apply Forall_app; split; [done|by repeat constructor]|]. done.
  - right. rewrite Htr. apply Forall_app. split; [by apply Forall_no_summary_quiet|done].
Qed.

Lemma summary_inj a f a' f' : summary a f = summary a' f' → a = a' ∧ f = f'.
Proof.
  unfold summary. intros [= Ha Hf]. split; by apply (inj pretty).
Qed.

Lemma filter_nonempty {A} (p : A → bool) (l : list A) :
  (0 < length (List.filter p l))%nat ↔ ∃ x, x ∈ l ∧ p x = true.
Proof.
  induction l as [|y l IH]; simpl.
  - split; [lia|]. intros (x & Hx & _). by apply elem_of_nil in Hx.
  - destruct (p y) eqn:Hy; simpl.
    + split; [|lia]. intros _. exists y. split; [by left|done].
    + rewrite IH. split; intros (x & Hx & Hpx).
      * exists x. split; [by right|done].
      * apply elem_of_cons in Hx as [->|Hx]; [congruence|by eauto].
Qed.

Lemma failures_pos tr :
  0 < failures tr ↔ ∃ resp, resp ∈ attempts tr ∧ status_code resp ≠ 200.
Proof.
  unfold failures. rewrite <- Nat2Z.inj_0, <- Nat2Z.inj_lt, filter_nonempty.
  split; intros (resp & Hin & H); exists resp; (split; [done|]).
  - unfold succeeded in H. apply negb_true_iff, Z.eqb_neq in H. done.
  - unfold succeeded. by apply negb_true_iff, Z.eqb_neq.
Qed.

(** A run that prints its summary prints it last; the counts are those of
    the recorded archive responses and decide the exit status. *)
Lemma summary_printed_last w a f :
  Print Stdout (summary a f) ∈ (run w).1 →
  last (run w).1 = Some (Print Stdout (summary a f)) ∧
  a = successes (run w).1 ∧ f = failures (run w).1 ∧
  (0 < f → (run w).2 = Exit 1) ∧
  (f = 0 → (run w).2 = Ret tt) ∧
  (exit_status (run w).2 = 1 ↔
   ∃ resp, resp ∈ attempts (run w).1 ∧ status_code resp ≠ 200) ∧
  (exit_status (run w).2 = 0 ↔
   ∀ resp, resp ∈ attempts (run w).1 → status_code resp = 200).
Proof.
  intros Hin.
  destruct (run_shape w) as [(pre & evs & a0 & f0 & Htr & Hpre & Hloop & Ha & Hf & Hout)|Hno].
  2: by apply (no_summary_not_elem _ a f) in Hno.
  assert (a = a0 ∧ f = f0) as [-> ->].
  { rewrite Htr in Hin. apply elem_of_app in Hin as [Hin|Hin].
    { by apply (no_summary_not_elem _ a f) in Hin; [|apply Forall_no_summary_quiet]. }
    apply elem_of_app in Hin as [Hin|Hin].
    { apply (no_summary_not_elem _ a f) in Hin; [done|].
      eapply Forall_impl; [exact Hloop|]. apply loop_event_no_summary. }
    apply list_elem_of_singleton in Hin. apply summary_inj. congruence. }
  assert (attempts (run w).1 = attempts evs) as Hatt.
  { rewrite Htr, !attempts_app, (attempts_quiet pre) by done.
    simpl. apply app_nil_r. }
  assert (successes (run w).1 = a0 ∧ failures (run w).1 = f0) as [Hs Hfl].
  { unfold successes, failures in *. by rewrite Hatt. }
  assert (0 ≤ f0) as Hf0 by (rewrite Hf; unfold failures; lia).
  split. { rewrite Htr, app_assoc. apply last_snoc. }
  split; [done|]. split; [done|].
  split. { intros Hpos. rewrite Hout. by destruct (Z.ltb_spec 0 f0); [|lia]. }
  split. { intros Hz. rewrite Hout. by destruct (Z.ltb_spec 0 f0); [lia|]. }
  split.
  - rewrite <- failures_pos, Hfl, Hout. destruct (Z.ltb_spec 0 f0); simpl; split; (done || lia).
  - rewrite Hout. destruct (Z.ltb_spec 0 f0) as [Hpos|Hle]; simpl.
    + split; [done|]. intros Hall. rewrite <- Hfl in Hpos.
      apply failures_pos in Hpos as (resp & Hr & Hne). by apply Hall in Hr.
    + split; [|done]. intros _ resp Hr.
      destruct (decide (status_code resp = 200)) as [|Hne]; [done|].
      assert (0 < failures (run w).1) by (apply failures_pos; eauto). lia.
Qed.

(** ** The archiving loop, record by record *)

(** On records with an identifier the loop runs to its end; the counters
    grow by the numbers of responses with and without status 200. *)
Lemma archive_all_complete w sess old : ∀ a f tr,
  Forall (λ bookmark, is_Some (id_of bookmark)) old →
  ∃ resps,
    length resps = length old ∧
    Forall (answered w) resps ∧
    archive_all w sess old a f tr
    = (tr ++ concat (zip_with (attempt_events sess) old resps),
       Ret (a + count_succeeded resps, f + count_failed resps)) ∧
    Forall2 (λ bookmark r, ∃ bookmark_id,
               id_of bookmark = Some bookmark_id ∧ r = archive_request sess bookmark_id)
            old (sent (concat (zip_with (attempt_events sess) old resps))).
Proof.
  induction old as [|bookmark rest IH]; intros a f tr Hall.
  - exists []. simpl. rewrite app_nil_r, !Z.add_0_r. by repeat split.
  - apply Forall_cons in Hall as [[bookmark_id Hid] Hrest].
    rewrite (archive_all_step _ _ _ _ _ _ _ _ Hid).
    set (resp := http w (sent tr) (archive_request sess bookmark_id)).
    edestruct IH as (resps & Hlen & Hans & Hrun & Hsent); [exact Hrest|].
    exists (resp :: resps). split; [simpl; by rewrite Hlen|].
    split. { constructor; [|done]. by exists (sent tr), (archive_request sess bookmark_id). }
    split.
    + rewrite Hrun. simpl. unfold attempt_events at 2. rewrite Hid. simpl.
      rewrite <- app_assoc. simpl. f_equal. f_equal.
      unfold count_succeeded, count_failed. simpl.
      destruct (succeeded resp); simpl; f_equal; lia.
    + simpl. unfold attempt_events at 1. rewrite Hid. simpl.
      unfold attempt_log. destruct (succeeded resp); simpl; (constructor; [by eauto|done]).
Qed.

Lemma counts_total resps :
  count_succeeded resps + count_failed resps = Z.of_nat (length resps).
Proof.
  unfold count_succeeded, count_failed. induction resps as [|resp resps IH]; [done|].
  simpl. destruct (succeeded resp); simpl; lia.
Qed.

(** The two events of an attempt, written out: the request, then the line
    with the title. *)
Lemma attempt_events_text sess bookmark resp bookmark_id title :
  id_of bookmark = Some bookmark_id →
  title_text bookmark = Some title →
  attempt_events sess bookmark resp
  = [Post (archive_request sess bookmark_id) resp;
     if status_code resp =? 200
     then Print Stdout [Lit "✓ Archived: "; Lit title]
     else Print Stderr [Lit "✗ Failed to archive: "; Lit title]].
Proof.
  intros Hid Htitle. unfold attempt_events, attempt_log, succeeded. rewrite Hid.
  destruct bookmark as [| | | | | |items]; try discriminate. simpl in Htitle |- *.
  destruct (lookup_item "title" items) as [[| | | |s| |]|]; try discriminate;
    injection Htitle as <-; done.
Qed.

(** C8.  The archiving loop, on records that carry a [bookmark_id]: each
    record gets exactly one request, in the order of the list, carrying its
    identifier; each request is followed at once by the line that reports
    it, which is "✓ Archived: " on stdout or "✗ Failed to archive: " on
    stderr followed by the record's title ("Untitled" when the record has
    none); and at the end [archived_count + failed_count] is the number of
    records. *)
Theorem one_attempt_per_record w sess old tr :
  Forall (λ bookmark, is_Some (id_of bookmark)) old →
  ∃ resps archived_count failed_count,
    length resps = length old ∧
    archive_all w sess old 0 0 tr
    = (tr ++ concat (zip_with (attempt_events sess) old resps),
       Ret (archived_count, failed_count)) ∧
    Forall2 (λ bookmark r, ∃ bookmark_id,
               id_of bookmark = Some bookmark_id ∧ r = archive_request sess bookmark_id)
            old (sent (concat (zip_with (attempt_events sess) old resps))) ∧
    (∀ bookmark resp bookmark_id title,
       id_of bookmark = Some bookmark_id → title_text bookmark = Some title →
       attempt_events sess bookmark resp
       = [Post (archive_request sess bookmark_id) resp;
          if status_code resp =? 200
          then Print Stdout [Lit "✓ Archived: "; Lit title]
          else Print Stderr [Lit "✗ Failed to archive: "; Lit title]]) ∧
    archived_count = count_succeeded resps ∧
    failed_count = count_failed resps ∧
    archived_count + failed_count = Z.of_nat (length old).
Proof.
  intros Hall.
  destruct (archive_all_complete w sess old 0 0 tr Hall) as (resps & Hlen & _ & Hrun & Hsent).
  exists resps, (count_succeeded resps), (count_failed resps).
  rewrite counts_total, Hlen. repeat split; try done.
  intros bookmark resp bookmark_id title. apply attempt_events_text.
Qed.

Lemma one_attempt_per_record_witness :
  (∃ resps archived_count failed_count,
     length resps = 2%nat ∧
     archive_all scenario_a example_session
       [record 1 1699999999 "Older"; untitled_record] 0 0 []
     = ([] ++ concat (zip_with (attempt_events example_session)
                        [record 1 1699999999 "Older"; untitled_record] resps),
        Ret (archived_count, failed_count)) ∧
     archived_count + failed_count = 2) ∧
  archive_all scenario_a example_session
    [record 1 1699999999 "Older"; untitled_record] 0 0 []
  = ([Post (archive_request example_session (VInt 1)) (answer 200 "" None);
      Print Stdout [Lit "✓ Archived: "; Lit "Older"];
      Post (archive_request example_session (VInt 4)) (answer 200 "" None);
      Print Stdout [Lit "✓ Archived: "; Lit "Untitled"]],
     Ret (2, 0)) ∧
  render [Lit "✓ Archived: "; Lit "Untitled"] = Some "✓ Archived: Untitled".
Proof.
  split; [|split; reflexivity].
  destruct (one_attempt_per_record scenario_a example_session
              [record 1 1699999999 "Older"; untitled_record] [])
    as (resps & a & f & Hlen & Hrun & _ & _ & _ & _ & Htotal).
  - repeat constructor; by eexists.
  - by exists resps, a, f.
Defined.

(** ** Authentication *)

(** With usable credentials, lines 93-112 are the token exchange followed
    by the construction of the session. *)
Lemma main_session_credentials w username password consumer_key consumer_secret :
  credentials w = Some (username, password, consumer_key, consumer_secret) →
  main_session w []
  = match get_access_token w username password consumer_key consumer_secret
            [authenticating] with
    | (tr, Ret (access_token, access_token_secret)) =>
        (tr, Ret (OAuth1Session consumer_key consumer_secret
                    (Some access_token) (Some access_token_secret)))
    | (tr, Exit code) => (tr, Exit code)
    | (tr, Raise e) => (tr, Raise e)
    end.
Proof.
  unfold credentials, main_session, load_config. intros Hcred.
  destruct (config_source w) as [| |[| | | | | |items]]; try discriminate.
  exec. simpl getitem. simpl get.
  destruct (lookup_item "consumer_key" items) as [ck|]; [|discriminate].
  destruct (lookup_item "consumer_secret" items) as [cs|]; [|discriminate].
  destruct (lookup_item "username" items) as [u|]; [|discriminate].
  simpl in Hcred. injection Hcred as <- <- <- <-. exec. simpl app.
  fold authenticating.
  destruct (get_access_token _ _ _ _ _ _) as [tr [[t s]| |e]]; exec; done.
Qed.

Lemma run_main w :
  run w = match main_session w [] with
          | (tr, Ret oauth_session) => main_bookmarks w oauth_session tr
          | (tr, Exit code) => (tr, Exit code)
          | (tr, Raise e) => (tr, Raise e)
          end.
Proof. reflexivity. Qed.

Lemma get_access_token_failed w username password consumer_key consumer_secret tr :
  let req := token_request username password consumer_key consumer_secret in
  let resp := http w (sent tr) req in
  status_code resp ≠ 200 →
  get_access_token w username password consumer_key consumer_secret tr
  = (tr ++ Post req resp :: token_error resp, Exit 1).
Proof.
  intros req resp Hstatus. unfold get_access_token. exec.
  fold token_url. fold (token_request username password consumer_key consumer_secret).
  fold req. fold resp.
  replace (negb (status_code resp =? 200)) with true
    by (symmetry; by apply negb_true_iff, Z.eqb_neq).
  exec. by rewrite <- !app_assoc.
Qed.

(** C5.  When the token endpoint answers with a status other than 200,
    [get_access_token] prints the status and the response body to the
    error stream and exits with status 1.  In [main] this ends the run:
    the authenticated session is never built, and the token request is the
    only request sent, so nothing is retried. *)
Theorem token_failure_is_fatal w username password consumer_key consumer_secret :
  let req := token_request username password consumer_key consumer_secret in
  (∀ tr,
     let resp := http w (sent tr) req in
     status_code resp ≠ 200 →
     get_access_token w username password consumer_key consumer_secret tr
     = (tr ++ Post req resp :: token_error resp, Exit 1)) ∧
  (let resp := http w [] req in
   credentials w = Some (username, password, consumer_key, consumer_secret) →
   status_code resp ≠ 200 →
   main_session w [] = (authenticating :: Post req resp :: token_error resp, Exit 1) ∧
   run w = (authenticating :: Post req resp :: token_error resp, Exit 1) ∧
   exit_status (run w).2 = 1 ∧
   sent (run w).1 = [req]).
Proof.
  intros req. split; [apply get_access_token_failed|]. intros resp Hcred Hstatus.
  assert (main_session w [] = (authenticating :: Post req resp :: token_error resp, Exit 1))
    as Hsession.
  { rewrite (main_session_credentials _ _ _ _ _ Hcred).
    by rewrite (get_access_token_failed _ _ _ _ _ [authenticating] Hstatus). }
  split; [exact Hsession|]. rewrite run_main, Hsession. by repeat split.
Qed.

Lemma token_failure_is_fatal_witness :
  let resp := answer 401 "Invalid xAuth credentials." None in
  run scenario_rejected
  = (authenticating :: Post example_token_request resp :: token_error resp, Exit 1) ∧
  exit_status (run scenario_rejected).2 = 1 ∧
  sent (run scenario_rejected).1 = [example_token_request].
Proof.
  destruct (token_failure_is_fatal scenario_rejected
              (VStr "reader@example.org") (VStr "") (VStr "key") (VStr "secret"))
    as [_ Hrun].
  destruct Hrun as (_ & Hrun & Hexit & Hsent); [reflexivity | vm_compute; discriminate |].
  exact (conj Hrun (conj Hexit Hsent)).
Defined.

(** C10.  Parsing a token response with status 200 is partial.  It
    returns a token pair exactly when every segment between ampersands has
    one equals sign and both [oauth_token] and [oauth_token_secret] occur
    as keys.  Otherwise it raises ValueError or KeyError, nothing is
    printed, and the run ends with that uncaught exception instead of a
    diagnostic and [sys.exit]. *)
Theorem malformed_token_body_raises w username password consumer_key consumer_secret :
  let req := token_request username password consumer_key consumer_secret in
  (∀ tr,
     let resp := http w (sent tr) req in
     let result := get_access_token w username password consumer_key consumer_secret tr in
     status_code resp = 200 →
     result.1 = tr ++ [Post req resp] ∧
     (well_formed_token_body (text resp) ↔ ∃ tokens, result.2 = Ret tokens) ∧
     (¬ well_formed_token_body (text resp) →
      (result.2 = Raise ValueError ∨ ∃ key, result.2 = Raise (KeyError key)) ∧
      exit_status result.2 = 1)) ∧
  (let resp := http w [] req in
   credentials w = Some (username, password, consumer_key, consumer_secret) →
   status_code resp = 200 →
   ¬ well_formed_token_body (text resp) →
   ∃ e, run w = ([authenticating; Post req resp], Raise e) ∧
        (e = ValueError ∨ ∃ key, e = KeyError key) ∧
        error_stream (run w) = [Traceback e] ∧
        exit_status (run w).2 = 1).
Proof.
  intros req. split; [intros tr; apply get_access_token_parse|].
  intros resp Hcred Hstatus Hbad.
  destruct (get_access_token_parse w username password consumer_key consumer_secret
              [authenticating] Hstatus) as (Htr & _ & Hraise).
  destruct (Hraise Hbad) as [Hexn _]. clear Hraise.
  rewrite run_main, (main_session_credentials _ _ _ _ _ Hcred).
  destruct (get_access_token w username password consumer_key consumer_secret [authenticating])
    as [tr o]. simpl in Htr, Hexn. subst tr.
  destruct Hexn as [->|[key ->]]; eexists; (split; [reflexivity|]); by eauto.
Qed.

(** A body without the token secret is not well formed. *)
Lemma truncated_body_is_malformed : ¬ well_formed_token_body "oauth_token=tok".
Proof.
  intros (_ & _ & [v Hv]). vm_compute in Hv.
  apply list_elem_of_singleton in Hv. discriminate Hv.
Qed.

Lemma malformed_token_body_raises_witness :
  ∃ e, run scenario_truncated
       = ([authenticating; Post example_token_request (answer 200 "oauth_token=tok" None)],
          Raise e) ∧
       (e = ValueError ∨ ∃ key, e = KeyError key) ∧
       error_stream (run scenario_truncated) = [Traceback e] ∧
       exit_status (run scenario_truncated).2 = 1.
Proof.
  destruct (malformed_token_body_raises scenario_truncated
              (VStr "reader@example.org") (VStr "") (VStr "key") (VStr "secret"))
    as [_ Hrun].
  apply Hrun; [reflexivity | reflexivity | exact truncated_body_is_malformed].
Defined.

(** ** Configuration *)

(** C4.  With a configuration that is absent, not JSON, not an object, or
    lacking one of [consumer_key], [consumer_secret] and [username], the
    run ends with exit status 1 and no request is sent.  Only the absent
    file is rejected by the loader, with three lines on the error stream
    and [sys.exit(1)].  A file that is not JSON makes the loader raise
    [JSONDecodeError]; any decoded value is returned by the loader, and
    [main] raises [TypeError] when it is not an object and [KeyError] for
    the first required field it lacks.  In these cases nothing is printed:
    the error stream shows the traceback only. *)
Theorem unusable_config_is_fatal w :
  unusable (config_source w) →
  exit_status (run w).2 = 1 ∧
  sent (run w).1 = [] ∧
  match config_source w with
  | Missing =>
      load_config w [] = (config_not_found w, Exit 1) ∧
      run w = (config_not_found w, Exit 1)
  | Unparsable =>
      load_config w [] = ([], Raise JSONDecodeError) ∧
      run w = ([], Raise JSONDecodeError)
  | Parsed v =>
      load_config w [] = ([], Ret v) ∧
      stderr_lines (run w).1 = [] ∧
      ((∀ items, v ≠ VDict items) → run w = ([], Raise TypeError)) ∧
      (∀ items, v = VDict items →
         ∃ key, key ∈ required_fields ∧ lookup_item key items = None ∧
                run w = ([], Raise (KeyError key)))
  end.
Proof.
  intros Hbad. rewrite run_main. unfold main_session, load_config.
  destruct Hbad as [| |v Hv|items key Hkey Hnone].
  - by exec.
  - by exec.
  - exec. assert (getitem v "consumer_key" = Raise TypeError) as ->.
    { destruct v; try done. by destruct (Hv items). }
    exec. repeat split; try done. intros items ->. by destruct (Hv items).
  - exec. simpl getitem.
    assert (∃ key', key' ∈ required_fields ∧ lookup_item key' items = None ∧
              (match lookup_item "consumer_key" items with
               | Some _ =>
                   match lookup_item "consumer_secret" items with
                   | Some _ =>
                       match lookup_item "username" items with
                       | Some _ => None
                       | None => Some "username"
                       end
                   | None => Some "consumer_secret"
                   end
               | None => Some "consumer_key"
               end = Some key')) as (key' & Hkey' & Hnone' & Hfirst).
    { unfold required_fields in *.
      destruct (lookup_item "consumer_key" items) eqn:Hck;
        [|exists "consumer_key"; split; [by left|done]].
      destruct (lookup_item "consumer_secret" items) eqn:Hcs;
        [|exists "consumer_secret"; split; [right; by left|done]].
      destruct (lookup_item "username" items) eqn:Hu;
        [|exists "username"; split; [do 2 right; by left|done]].
      repeat (apply elem_of_cons in Hkey as [->|Hkey]; [congruence|]).
      by apply elem_of_nil in Hkey. }
    assert (∀ e : exn, (∀ items' : list (string * value), VDict items ≠ VDict items') →
              ([] : trace, @Raise unit e) = ([], Raise TypeError)) as Hdict.
    { intros e Hv. by destruct (Hv items). }
    destruct (lookup_item "consumer_key" items); exec.
    2: { injection Hfirst as <-. do 4 (split; [done|]). split; [apply Hdict|].
         intros ? [= <-]. by exists "consumer_key". }
    destruct (lookup_item "consumer_secret" items); exec.
    2: { injection Hfirst as <-. do 4 (split; [done|]). split; [apply Hdict|].
         intros ? [= <-]. by exists "consumer_secret". }
    destruct (lookup_item "username" items); exec; [done|].
    injection Hfirst as <-. do 4 (split; [done|]). split; [apply Hdict|].
    intros ? [= <-]. by exists "username".
Qed.

Lemma unusable_config_is_fatal_witness :
  exit_status (run scenario_no_username).2 = 1 ∧
  sent (run scenario_no_username).1 = [] ∧
  load_config scenario_no_username []
  = ([], Ret (VDict [("consumer_key", VStr "key"); ("consumer_secret", VStr "secret")])) ∧
  stderr_lines (run scenario_no_username).1 = [] ∧
  ((∀ items, VDict [("consumer_key", VStr "key"); ("consumer_secret", VStr "secret")]
             ≠ VDict items) →
   run scenario_no_username = ([], Raise TypeError)) ∧
  (∀ items, VDict [("consumer_key", VStr "key"); ("consumer_secret", VStr "secret")]
            = VDict items →
     ∃ key, key ∈ required_fields ∧ lookup_item key items = None ∧
            run scenario_no_username = ([], Raise (KeyError key))).
Proof.
  apply (unusable_config_is_fatal scenario_no_username).
  apply (config_missing_field _ "username"); [|reflexivity].
  apply list_elem_of_In. simpl. tauto.
Defined.

(** The loader does not reject every unusable configuration with a
    message: an object without [username] is unusable, the loader returns
    it normally, [main] raises [KeyError], and the run prints nothing to
    the error stream. *)
Lemma missing_field_is_not_rejected :
  unusable (config_source scenario_no_username) ∧
  load_config scenario_no_username []
  = ([], Ret (VDict [("consumer_key", VStr "key"); ("consumer_secret", VStr "secret")])) ∧
  run scenario_no_username = ([], Raise (KeyError "username")) ∧
  stderr_lines (run scenario_no_username).1 = [].
Proof.
  split; [|by repeat split].
  apply (config_missing_field _ "username"); [|reflexivity].
  apply list_elem_of_In. simpl. tauto.
Qed.

(** ** Listing failures and empty listings *)

Lemma sent_snoc_print tr f l : sent (tr ++ [Print f l]) = sent tr.
Proof. unfold sent. rewrite omap_app. simpl. apply app_nil_r. Qed.

Lemma get_newsletter_bookmarks_failed w sess tr :
  let resp := http w (sent tr) (list_request sess) in
  status_code resp ≠ 200 →
  get_newsletter_bookmarks w sess tr
  = (tr ++ Post (list_request sess) resp :: fetch_error resp, Ret (VList [])).
Proof.
  intros resp Hstatus. unfold get_newsletter_bookmarks. exec.
  fold list_url. fold (list_request sess). fold resp.
  replace (negb (status_code resp =? 200)) with true
    by (symmetry; by apply negb_true_iff, Z.eqb_neq).
  exec. by rewrite <- !app_assoc.
Qed.

Lemma main_bookmarks_none w sess tr tr2 :
  get_newsletter_bookmarks w sess (tr ++ [fetching]) = (tr2, Ret (VList [])) →
  main_bookmarks w sess tr = (tr2 ++ [found_tagged 0; nothing_to_process], Ret tt).
Proof.
  intros Hlist. unfold main_bookmarks. exec. fold fetching. rewrite Hlist. exec.
  simpl len. exec. change (negb (truthy (VList []))) with true. exec.
  by rewrite <- app_assoc.
Qed.

Lemma main_session_attempts w tr sess :
  main_session w [] = (tr, Ret sess) → attempts tr = [].
Proof.
  intros Hrun. destruct (main_session_quiet w []) as (evs & Hevs & Hquiet).
  rewrite Hrun in Hevs. simpl in Hevs. subst tr. by apply attempts_quiet.
Qed.

Lemma get_newsletter_bookmarks_attempts w sess tr tr2 o :
  get_newsletter_bookmarks w sess tr = (tr2, o) → attempts tr2 = attempts tr.
Proof.
  intros Hrun. destruct (get_newsletter_bookmarks_quiet w sess tr) as (evs & Hevs & Hquiet).
  rewrite Hrun in Hevs. simpl in Hevs. subst tr2.
  rewrite attempts_app, (attempts_quiet evs) by done. apply app_nil_r.
Qed.

(** C3.  When the listing endpoint answers with a status other than 200,
    [get_newsletter_bookmarks] prints the status and the body to the error
    stream and returns the empty list.  The run then reports zero
    bookmarks, sends no archive request and returns, with exit
    status 0. *)
Theorem listing_failure_is_soft w oauth_session :
  (∀ tr,
     let resp := http w (sent tr) (list_request oauth_session) in
     status_code resp ≠ 200 →
     get_newsletter_bookmarks w oauth_session tr
     = (tr ++ Post (list_request oauth_session) resp :: fetch_error resp, Ret (VList []))) ∧
  (∀ tr,
     let resp := http w (sent tr) (list_request oauth_session) in
     main_session w [] = (tr, Ret oauth_session) →
     status_code resp ≠ 200 →
     run w = (tr ++ [fetching; Post (list_request oauth_session) resp] ++ fetch_error resp
                 ++ [found_tagged 0; nothing_to_process],
              Ret tt) ∧
     exit_status (run w).2 = 0 ∧
     attempts (run w).1 = []).
Proof.
  split; [apply get_newsletter_bookmarks_failed|].
  intros tr resp Hsession Hstatus.
  assert (run w = (tr ++ [fetching; Post (list_request oauth_session) resp] ++ fetch_error resp
                 ++ [found_tagged 0; nothing_to_process], Ret tt)) as Hrun.
  { rewrite run_main, Hsession.
    erewrite main_bookmarks_none; [|apply get_newsletter_bookmarks_failed].
    - unfold fetching. rewrite sent_snoc_print. fold resp. by rewrite <- !app_assoc.
    - unfold fetching. by rewrite sent_snoc_print. }
  split; [exact Hrun|]. rewrite Hrun. split; [done|]. simpl.
  rewrite attempts_app, (main_session_attempts _ _ _ Hsession). done.
Qed.

Lemma listing_failure_is_soft_witness :
  let resp := answer 500 "Internal Server Error" None in
  run scenario_d
  = ([authenticating; Post example_token_request token_ok]
       ++ [fetching; Post (list_request example_session) resp] ++ fetch_error resp
       ++ [found_tagged 0; nothing_to_process],
     Ret tt) ∧
  exit_status (run scenario_d).2 = 0 ∧
  attempts (run scenario_d).1 = [].
Proof.
  destruct (listing_failure_is_soft scenario_d example_session) as [_ Hrun].
  apply (Hrun [authenticating; Post example_token_request token_ok]);
    [reflexivity | vm_compute; discriminate].
Defined.

(** ** Successful runs *)

Lemma all_succeeded resps :
  Forall (λ resp, status_code resp = 200) resps →
  count_succeeded resps = Z.of_nat (length resps) ∧ count_failed resps = 0.
Proof.
  unfold count_succeeded, count_failed. induction 1 as [|resp resps Hok _ [IH1 IH2]]; [done|].
  assert (succeeded resp = true) as Hs by (unfold succeeded; by rewrite Hok).
  simpl. rewrite Hs. simpl. split; lia.
Qed.

Lemma attempts_attempt_events sess old : ∀ resps,
  Forall (λ bookmark, is_Some (id_of bookmark)) old →
  length resps = length old →
  attempts (concat (zip_with (attempt_events sess) old resps)) = resps.
Proof.
  induction old as [|bookmark rest IH]; intros [|resp resps] Hall Hlen; try done.
  apply Forall_cons in Hall as [[bookmark_id Hid] Hrest].
  change (attempts (attempt_events sess bookmark resp
                    ++ concat (zip_with (attempt_events sess) rest resps)) = resp :: resps).
  rewrite attempts_app, IH by auto. unfold attempt_events. rewrite Hid.
  rewrite attempts_post by done.
  unfold attempt_log. by destruct (succeeded resp).
Qed.

(** The run from a non-empty listing of well-formed records, of which some
    are old enough. *)
Lemma main_bookmarks_archive w sess tr tr2 bookmarks :
  get_newsletter_bookmarks w sess (tr ++ [fetching]) = (tr2, Ret (VList bookmarks)) →
  min_timestamp * second ≤ cutoff w →
  Forall timed bookmarks →
  let old := List.filter (older_than_cutoff w) bookmarks in
  old ≠ [] →
  Forall (λ bookmark, is_Some (id_of bookmark)) old →
  ∃ resps,
    length resps = length old ∧
    Forall (answered w) resps ∧
    main_bookmarks w sess tr
    = (tr2 ++ [found_tagged (Z.of_nat (length bookmarks));
               found_old (Z.of_nat (length old))]
           ++ concat (zip_with (attempt_events sess) old resps)
           ++ [Print Stdout (summary (count_succeeded resps) (count_failed resps))],
       if 0 <? count_failed resps then Exit 1 else Ret tt).
Proof.
  intros Hlist Hclock Htimed old Hold Hids.
  unfold main_bookmarks. exec. fold fetching. rewrite Hlist. exec.
  simpl len. exec. fold (found_tagged (Z.of_nat (length bookmarks))).
  assert (negb (truthy (VList bookmarks)) = false) as ->.
  { destruct bookmarks; [by destruct Hold|done]. }
  unfold main_archive. exec. rewrite main_old_bookmarks_filter by done. fold old. exec.
  fold (found_old (Z.of_nat (length old))).
  set (tr3 := (tr2 ++ _) ++ _).
  destruct (archive_all_complete w sess old 0 0 tr3 Hids) as (resps & Hlen & Hans & Hrun & _).
  exists resps. split; [done|]. split; [done|].
  destruct old as [|b rest] eqn:Hold'; [done|]. rewrite <- Hold' in *.
  exec. rewrite Hrun. exec. rewrite !Z.add_0_l. subst tr3.
  destruct (0 <? count_failed resps); exec; rewrite <- !app_assoc, <- ?Hold'; done.
Qed.

(** C7.  Once the session is established: if the lister returns no
    bookmark, the run prints "No bookmarks to process", sends no archive
    request and exits with status 0; if it returns records of which some
    are older than the cutoff and every archive request is answered with
    200, the run attempts each of them, prints the summary with that
    number archived and 0 failed, and exits with status 0.  For two such
    records the summary reads "2 archived, 0 failed". *)
Theorem empty_and_successful_runs w oauth_session tr1 :
  main_session w [] = (tr1, Ret oauth_session) →
  (∀ tr2,
     get_newsletter_bookmarks w oauth_session (tr1 ++ [fetching]) = (tr2, Ret (VList [])) →
     run w = (tr2 ++ [found_tagged 0; nothing_to_process], Ret tt) ∧
     exit_status (run w).2 = 0 ∧
     attempts (run w).1 = []) ∧
  (∀ tr2 bookmarks,
     get_newsletter_bookmarks w oauth_session (tr1 ++ [fetching])
       = (tr2, Ret (VList bookmarks)) →
     min_timestamp * second ≤ cutoff w →
     Forall timed bookmarks →
     let old := List.filter (older_than_cutoff w) bookmarks in
     old ≠ [] →
     Forall (λ bookmark, is_Some (id_of bookmark)) old →
     (∀ history r, url r = archive_url → status_code (http w history r) = 200) →
     ∃ evs,
       run w = (tr2 ++ [found_tagged (Z.of_nat (length bookmarks));
                        found_old (Z.of_nat (length old))]
                    ++ evs ++ [Print Stdout (summary (Z.of_nat (length old)) 0)],
                Ret tt) ∧
       length (attempts evs) = length old ∧
       exit_status (run w).2 = 0) ∧
  render (summary 2 0) = Some (nl +:+ "Summary: 2 archived, 0 failed").
Proof.
  intros Hsession. split; [|split; [|reflexivity]].
  - intros tr2 Hlist.
    assert (run w = (tr2 ++ [found_tagged 0; nothing_to_process], Ret tt)) as Hrun.
    { rewrite run_main, Hsession. by apply main_bookmarks_none. }
    split; [exact Hrun|]. rewrite Hrun. split; [done|]. simpl.
    rewrite attempts_app, (get_newsletter_bookmarks_attempts _ _ _ _ _ Hlist).
    rewrite attempts_app, (main_session_attempts _ _ _ Hsession). done.
  - intros tr2 bookmarks Hlist Hclock Htimed old Hold Hids Hsucceed.
    destruct (main_bookmarks_archive _ _ _ _ _ Hlist Hclock Htimed Hold Hids)
      as (resps & Hlen & Hans & Hrun).
    assert (Forall (λ resp, status_code resp = 200) resps) as Hok.
    { eapply Forall_impl; [exact Hans|]. intros resp (history & r & Hurl & ->). by apply Hsucceed. }
    destruct (all_succeeded resps Hok) as [Hs Hf]. rewrite Hs, Hf, Hlen in Hrun. fold old in Hrun.
    simpl in Hrun.
    exists (concat (zip_with (attempt_events oauth_session) old resps)).
    rewrite run_main, Hsession, Hrun. split; [done|]. split; [|done].
    by rewrite attempts_attempt_events.
Qed.

Lemma empty_and_successful_runs_witness :
  (run scenario_c
   = ([authenticating; Post example_token_request token_ok; fetching;
       Post (list_request example_session) (listing_of [])]
        ++ [found_tagged 0; nothing_to_process],
      Ret tt) ∧
   exit_status (run scenario_c).2 = 0 ∧
   attempts (run scenario_c).1 = []) ∧
  (∃ evs,
     run scenario_a
     = ([authenticating; Post example_token_request token_ok; fetching;
         Post (list_request example_session) (listing_of three_bookmarks)]
          ++ [found_tagged 3; found_old 2] ++ evs ++ [Print Stdout (summary 2 0)],
        Ret tt) ∧
     length (attempts evs) = 2%nat ∧
     exit_status (run scenario_a).2 = 0) ∧
  render (summary 2 0) = Some (nl +:+ "Summary: 2 archived, 0 failed").
Proof.
  destruct (empty_and_successful_runs scenario_c example_session
              [authenticating; Post example_token_request token_ok] eq_refl)
    as (Hempty & _ & Hrender).
  destruct (empty_and_successful_runs scenario_a example_session
              [authenticating; Post example_token_request token_ok] eq_refl)
    as (_ & Hfull & _).
  split; [apply Hempty; reflexivity|]. split; [|exact Hrender].
  apply (Hfull _ three_bookmarks).
  - reflexivity.
  - vm_compute. discriminate.
  - timed_records.
  - vm_compute. discriminate.
  - repeat constructor; by eexists.
  - intros history r Hurl. unfold scenario_a, example_world, service. simpl.
    rewrite Hurl. reflexivity.
Defined.

(** ** Summary and exit status *)

Lemma all_failed resps :
  Forall (λ resp, status_code resp ≠ 200) resps →
  count_succeeded resps = 0 ∧ count_failed resps = Z.of_nat (length resps).
Proof.
  unfold count_succeeded, count_failed. induction 1 as [|resp resps Hko _ [IH1 IH2]]; [done|].
  assert (succeeded resp = false) as Hs by (unfold succeeded; by apply Z.eqb_neq).
  simpl. rewrite Hs. simpl. split; lia.
Qed.

(** C2.  When a run prints its summary, it does so last, after all
    attempts, and the two counts are the numbers of archive responses with
    and without status 200; the process then exits with status 1 if and
    only if at least one attempt failed, and with status 0 if and only if
    every attempt succeeded.  In particular, when exactly one listed
    record is older than the cutoff and the archive endpoint does not
    answer 200, the run ends with the summary "0 archived, 1 failed" and
    exit status 1. *)
Theorem exit_status_reports_failures w :
  (∀ a f,
     Print Stdout (summary a f) ∈ (run w).1 →
     last (run w).1 = Some (Print Stdout (summary a f)) ∧
     a = successes (run w).1 ∧ f = failures (run w).1 ∧
     (0 < f → (run w).2 = Exit 1) ∧
     (f = 0 → (run w).2 = Ret tt) ∧
     (exit_status (run w).2 = 1 ↔
      ∃ resp, resp ∈ attempts (run w).1 ∧ status_code resp ≠ 200) ∧
     (exit_status (run w).2 = 0 ↔
      ∀ resp, resp ∈ attempts (run w).1 → status_code resp = 200)) ∧
  (∀ oauth_session tr1 tr2 bookmarks bookmark,
     main_session w [] = (tr1, Ret oauth_session) →
     get_newsletter_bookmarks w oauth_session (tr1 ++ [fetching])
       = (tr2, Ret (VList bookmarks)) →
     min_timestamp * second ≤ cutoff w →
     Forall timed bookmarks →
     List.filter (older_than_cutoff w) bookmarks = [bookmark] →
     is_Some (id_of bookmark) →
     (∀ history r, url r = archive_url → status_code (http w history r) ≠ 200) →
     last (run w).1 = Some (Print Stdout (summary 0 1)) ∧
     (run w).2 = Exit 1 ∧
     exit_status (run w).2 = 1) ∧
  render (summary 0 1) = Some (nl +:+ "Summary: 0 archived, 1 failed").
Proof.
  split; [intros a f; apply summary_printed_last|]. split; [|reflexivity].
  intros sess tr1 tr2 bookmarks bookmark Hsession Hlist Hclock Htimed Hold Hid Hfail.
  destruct (main_bookmarks_archive w sess tr1 tr2 bookmarks Hlist Hclock Htimed)
    as (resps & Hlen & Hans & Hrun).
  { by rewrite Hold. }
  { rewrite Hold. by constructor. }
  assert (Forall (λ resp, status_code resp ≠ 200) resps) as Hko.
  { eapply Forall_impl; [exact Hans|]. intros resp (history & r & Hurl & ->). by apply Hfail. }
  destruct (all_failed resps Hko) as [Hs Hf]. rewrite Hs, Hf, Hlen, Hold in Hrun.
  simpl length in Hrun. change (0 <? Z.of_nat 1) with true in Hrun.
  rewrite !app_assoc in Hrun. rewrite run_main, Hsession, Hrun. cbn [fst snd].
  split; [apply last_snoc|done].
Qed.

Lemma exit_status_reports_failures_witness :
  Print Stdout (summary 0 1) ∈ (run scenario_b).1 ∧
  last (run scenario_b).1 = Some (Print Stdout (summary 0 1)) ∧
  (run scenario_b).2 = Exit 1 ∧
  render (summary 0 1) = Some (nl +:+ "Summary: 0 archived, 1 failed").
Proof.
  destruct (exit_status_reports_failures scenario_b) as (Hsummary & Hone & Hrender).
  assert (Print Stdout (summary 0 1) ∈ (run scenario_b).1) as Hin.
  { apply (list_elem_of_lookup_2 _ 8%nat). vm_compute. reflexivity. }
  split; [exact Hin|].
  destruct (Hsummary 0 1 Hin) as (Hlast & _ & _ & Hexit & _).
  destruct (Hone example_session [authenticating; Post example_token_request token_ok]
              [authenticating; Post example_token_request token_ok; fetching;
               Post (list_request example_session) (listing_of [record 1 1699999999 "Older"])]
              [record 1 1699999999 "Older"] (record 1 1699999999 "Older"))
    as (_ & Hout & _).
  - reflexivity.
  - reflexivity.
  - vm_compute. discriminate.
  - timed_records.
  - reflexivity.
  - by eexists.
  - intros history r Hurl. unfold scenario_b, example_world, service. simpl.
    rewrite Hurl. vm_compute. discriminate.
  - exact (conj Hlast (conj Hout Hrender)).
Defined.

(** ** Records without a usable time *)

Lemma undated_moment bookmark : undated bookmark → moment_of bookmark = None.
Proof.
  intros Hno. unfold moment_of. destruct bookmark as [| | | | | |items]; try done.
  unfold getitem. destruct (lookup_item "time" items) as [t|] eqn:Ht; [|done].
  specialize (Hno t Ht). by destruct t.
Qed.

Lemma select_old_undated c bookmarks : ∀ old tr,
  Exists (λ bookmark, moment_of bookmark = None) bookmarks →
  ∃ e, select_old c bookmarks old tr = (tr, Raise e).
Proof.
  induction bookmarks as [|b rest IH]; intros old tr Hbad.
  - by apply Exists_nil in Hbad.
  - cbn [select_old]. exec. destruct (moment_of b) as [μ|] eqn:Hb.
    + apply Exists_cons in Hbad as [Hbad|Hbad]; [congruence|].
      unfold moment_of in Hb. destruct (getitem b "time") as [t| |]; [|done..]. exec.
      destruct (fromtimestamp t) as [μ'| |]; [|done..]. exec.
      destruct (μ' <? c); by apply IH.
    + unfold moment_of in Hb. destruct (getitem b "time") as [t|code|e] eqn:Hget; exec.
      * destruct (fromtimestamp t) as [μ'|code|e] eqn:Hfrom; exec; [done| |by eexists].
        by apply fromtimestamp_no_exit in Hfrom.
      * by apply getitem_no_exit in Hget.
      * by eexists.
Qed.

(** X1.  One record without a number for [time] stops the age filter of
    lines 122-130: when some listed record has no [time] field, or one that
    is [null], a string, an array or an object, the filter raises, with
    nothing printed and nothing sent, and the rest of [main] raises the
    same exception.  No record is archived, not even the old ones listed
    before the faulty one. *)
Theorem undated_record_stops_the_filter w oauth_session bookmarks tr :
  Exists undated bookmarks →
  ∃ e, main_old_bookmarks w (VList bookmarks) tr = (tr, Raise e) ∧
       main_archive w oauth_session (VList bookmarks) tr = (tr, Raise e).
Proof.
  intros Hbad.
  assert (∃ e, main_old_bookmarks w (VList bookmarks) tr = (tr, Raise e)) as [e He].
  { unfold main_old_bookmarks. exec.
    destruct (datetime_sub (now w) (days 7)) as [c|code|e] eqn:Hsub; exec.
    - simpl iter. exec. apply select_old_undated.
      eapply Exists_impl; [exact Hbad|]. apply undated_moment.
    - unfold datetime_sub in Hsub. by destruct (_ <=? _).
    - by eexists. }
  exists e. split; [done|]. unfold main_archive. exec. rewrite He. by exec.
Qed.

Lemma undated_record_stops_the_filter_witness :
  ∃ e, main_old_bookmarks scenario_a (VList bookmarks_with_untimed) [] = ([], Raise e) ∧
       main_archive scenario_a example_session (VList bookmarks_with_untimed) []
       = ([], Raise e).
Proof.
  apply (undated_record_stops_the_filter scenario_a example_session bookmarks_with_untimed []).
  apply Exists_cons. right. apply Exists_cons. left. intros t Ht. simpl in Ht. discriminate.
Defined.

(** ** Listed bookmarks, none old enough *)

Lemma filter_none_old w bookmarks :
  (∀ bookmark n, bookmark ∈ bookmarks → time_of bookmark = Some n → cutoff w ≤ n * second) →
  List.filter (older_than_cutoff w) bookmarks = [].
Proof.
  intros Hnew. induction bookmarks as [|b rest IH]; [done|]. simpl.
  assert (older_than_cutoff w b = false) as ->.
  { unfold older_than_cutoff. destruct (time_of b) as [n|] eqn:Ht; [|done].
    apply Z.ltb_ge. apply (Hnew b n); [by left|done]. }
  apply IH. intros b' n Hin. apply Hnew. by right.
Qed.

(** X2. When the listing holds bookmarks but none is older than the
    cutoff, the run prints the number of tagged bookmarks, then
    "Found 0 newsletters older than 7 days" and "No bookmarks to archive",
    and returns: exit status 0, no archive request, no summary line. *)
Theorem nothing_old_enough w oauth_session tr1 tr2 bookmarks :
  main_session w [] = (tr1, Ret oauth_session) →
  get_newsletter_bookmarks w oauth_session (tr1 ++ [fetching]) = (tr2, Ret (VList bookmarks)) →
  bookmarks ≠ [] →
  min_timestamp * second ≤ cutoff w →
  Forall timed bookmarks →
  (∀ bookmark n, bookmark ∈ bookmarks → time_of bookmark = Some n → cutoff w ≤ n * second) →
  run w = (tr2 ++ [found_tagged (Z.of_nat (length bookmarks)); found_old 0; nothing_to_archive],
           Ret tt) ∧
  exit_status (run w).2 = 0 ∧
  attempts (run w).1 = [].
Proof.
  intros Hsession Hlist Hsome Hclock Htimed Hnew.
  assert (run w = (tr2 ++ [found_tagged (Z.of_nat (length bookmarks)); found_old 0;
                           nothing_to_archive], Ret tt)) as Hrun.
  { rewrite run_main, Hsession. unfold main_bookmarks. exec. fold fetching. rewrite Hlist.
    exec. simpl len. exec. fold (found_tagged (Z.of_nat (length bookmarks))).
    assert (negb (truthy (VList bookmarks)) = false) as -> by (by destruct bookmarks).
    unfold main_archive. exec. rewrite main_old_bookmarks_filter by done.
    rewrite filter_none_old by done. exec. by rewrite <- !app_assoc. }
  split; [exact Hrun|]. rewrite Hrun. split; [done|]. cbn [fst].
  rewrite attempts_app, (get_newsletter_bookmarks_attempts _ _ _ _ _ Hlist).
  rewrite attempts_app, (main_session_attempts _ _ _ Hsession). done.
Qed.

Lemma nothing_old_enough_witness :
  run scenario_recent
  = ([authenticating; Post example_token_request token_ok; fetching;
      Post (list_request example_session) (listing_of recent_bookmarks)]
       ++ [found_tagged 2; found_old 0; nothing_to_archive],
     Ret tt) ∧
  exit_status (run scenario_recent).2 = 0 ∧
  attempts (run scenario_recent).1 = [].
Proof.
  apply (nothing_old_enough scenario_recent example_session
           [authenticating; Post example_token_request token_ok] _ recent_bookmarks).
  - reflexivity.
  - reflexivity.
  - discriminate.
  - vm_compute. discriminate.
  - timed_records.
  - intros b n Hin Ht.
    repeat (apply elem_of_cons in Hin as [->|Hin];
            [injection Ht as <-; vm_compute; discriminate|]).
    by apply elem_of_nil in Hin.
Defined.

(** ** A listing response with status 200 that is not an array *)

Lemma get_newsletter_bookmarks_decoded w sess tr :
  let resp := http w (sent tr) (list_request sess) in
  status_code resp = 200 →
  get_newsletter_bookmarks w sess tr
  = match json resp with
    | None => (tr ++ [Post (list_request sess) resp], Raise JSONDecodeError)
    | Some data =>
        (tr ++ [Post (list_request sess) resp],
         match len data with
         | Ret n => if 1 <? n then slice_from_1 data else Ret (VList [])
         | Exit code => Exit code
         | Raise e => Raise e
         end)
    end.
Proof.
  intros resp Hstatus. unfold get_newsletter_bookmarks. exec.
  fold list_url. fold (list_request sess). fold resp.
  replace (negb (status_code resp =? 200)) with false by (by rewrite Hstatus).
  destruct (json resp) as [data|]; exec; [|done].
  destruct (len data) as [n| |e]; exec; [|done..].
  destruct (1 <? n); by exec.
Qed.

(** X3. A listing response with status 200 whose body is not JSON is not
    handled the way a failing status is: [response.json()] raises, the
    lister sends its one request and ends in [JSONDecodeError], and the
    run ends right after "Fetching newsletter bookmarks..." with that
    uncaught exception: exit status 1, the traceback as the only content
    of the error stream, no archive request. *)
Theorem undecodable_listing_raises w oauth_session :
  (∀ tr,
     let resp := http w (sent tr) (list_request oauth_session) in
     status_code resp = 200 → json resp = None →
     get_newsletter_bookmarks w oauth_session tr
     = (tr ++ [Post (list_request oauth_session) resp], Raise JSONDecodeError)) ∧
  (∀ tr,
     let resp := http w (sent tr) (list_request oauth_session) in
     main_session w [] = (tr, Ret oauth_session) →
     status_code resp = 200 → json resp = None →
     run w = (tr ++ [fetching; Post (list_request oauth_session) resp], Raise JSONDecodeError) ∧
     exit_status (run w).2 = 1 ∧
     error_stream (run w) = [Traceback JSONDecodeError] ∧
     attempts (run w).1 = []).
Proof.
  assert (∀ tr,
     let resp := http w (sent tr) (list_request oauth_session) in
     status_code resp = 200 → json resp = None →
     get_newsletter_bookmarks w oauth_session tr
     = (tr ++ [Post (list_request oauth_session) resp], Raise JSONDecodeError)) as Hfun.
  { intros tr resp Hstatus Hjson.
    rewrite (get_newsletter_bookmarks_decoded _ _ _ Hstatus). fold resp. by rewrite Hjson. }
  split; [exact Hfun|]. intros tr resp Hsession Hstatus Hjson.
  assert (run w = (tr ++ [fetching; Post (list_request oauth_session) resp],
                   Raise JSONDecodeError)) as Hrun.
  { rewrite run_main, Hsession. unfold main_bookmarks. exec. fold fetching.
    rewrite Hfun; unfold fetching; rewrite sent_snoc_print; [|done..].
    fold resp. exec. by rewrite <- app_assoc. }
  split; [exact Hrun|]. rewrite Hrun. split; [done|].
  assert (attempts tr = []) as Hatt by (by eapply main_session_attempts).
  assert (stderr_lines tr = []) as Herr.
  { destruct (main_session_quiet w []) as (evs & Hevs & _). clear Hevs.
    revert Hsession. unfold main_session, load_config, get_access_token.
    paths; intros [= <- <-] || intros [=]; done. }
  split.
  - unfold error_stream. cbn [fst snd]. unfold stderr_lines in *. rewrite omap_app, Herr. done.
  - cbn [fst]. by rewrite attempts_app, Hatt.
Qed.

Lemma undecodable_listing_raises_witness :
  let resp := answer 200 "<html>Service unavailable</html>" None in
  run scenario_html
  = ([authenticating; Post example_token_request token_ok]
       ++ [fetching; Post (list_request example_session) resp],
     Raise JSONDecodeError) ∧
  exit_status (run scenario_html).2 = 1 ∧
  error_stream (run scenario_html) = [Traceback JSONDecodeError] ∧
  attempts (run scenario_html).1 = [].
Proof.
  destruct (undecodable_listing_raises scenario_html example_session) as [_ Hrun].
  apply (Hrun [authenticating; Post example_token_request token_ok]); reflexivity.
Defined.

(** X4. The lister checks only the length of the decoded body.  After its
    request, a body that is [null], a boolean or a number raises
    [TypeError] at [len]; a JSON object with at most one key (an error
    object, for instance) yields the empty list, and a run on it reports
    0 bookmarks and "No bookmarks to process" with exit status 0; an
    object with more keys makes the slice raise. *)
Theorem object_listing_is_not_rejected w oauth_session tr data :
  let resp := http w (sent tr) (list_request oauth_session) in
  let result := get_newsletter_bookmarks w oauth_session tr in
  status_code resp = 200 →
  json resp = Some data →
  result.1 = tr ++ [Post (list_request oauth_session) resp] ∧
  match data with
  | VNone | VBool _ | VInt _ | VFloat _ => result.2 = Raise TypeError
  | VDict items =>
      ((length items ≤ 1)%nat → result.2 = Ret (VList [])) ∧
      ((1 < length items)%nat → ∃ e, result.2 = Raise e)
  | _ => True
  end ∧
  (∀ items,
     data = VDict items → (length items ≤ 1)%nat →
     main_session w [] = (tr, Ret oauth_session) →
     run w = (tr ++ [fetching; Post (list_request oauth_session) resp;
                     found_tagged 0; nothing_to_process],
              Ret tt)).
Proof.
  intros resp result Hstatus Hjson. subst result.
  pose proof (get_newsletter_bookmarks_decoded w oauth_session tr Hstatus) as Hrun.
  fold resp in Hrun. rewrite Hjson in Hrun. rewrite Hrun. cbn [fst snd].
  split; [done|]. split.
  - destruct data as [| | | | | |items]; try done. simpl len. split; intros Hlen.
    + destruct (Z.ltb_spec 1 (Z.of_nat (length items))); [lia|done].
    + destruct (Z.ltb_spec 1 (Z.of_nat (length items))); [by eexists|lia].
  - intros items -> Hlen Hsession. rewrite run_main, Hsession.
    rewrite (main_bookmarks_none w oauth_session tr
               (tr ++ [fetching; Post (list_request oauth_session) resp])).
    + by rewrite <- app_assoc.
    + unfold fetching.
      pose proof (get_newsletter_bookmarks_decoded w oauth_session
                    (tr ++ [Print Stdout [Lit "Fetching newsletter bookmarks..."]])) as Hrun'.
      rewrite sent_snoc_print in Hrun'. fold resp in Hrun'.
      rewrite (Hrun' Hstatus), Hjson.
      change (len (VDict items)) with (@Ret Z (Z.of_nat (length items))). cbv beta iota.
      replace (1 <? Z.of_nat (length items)) with false by (symmetry; apply Z.ltb_ge; lia).
      by rewrite <- app_assoc.
Qed.

Lemma object_listing_is_not_rejected_witness :
  let resp := answer 200 "" (Some error_object) in
  (get_newsletter_bookmarks scenario_error_object example_session
     [authenticating; Post example_token_request token_ok]).2 = Ret (VList []) ∧
  run scenario_error_object
  = ([authenticating; Post example_token_request token_ok]
       ++ [fetching; Post (list_request example_session) resp;
           found_tagged 0; nothing_to_process],
     Ret tt).
Proof.
  destruct (object_listing_is_not_rejected scenario_error_object example_session
              [authenticating; Post example_token_request token_ok] error_object
              eq_refl eq_refl) as (_ & [Hfew _] & Hrun).
  split.
  - apply Hfew. simpl. lia.
  - apply (Hrun [("error", VStr "rate limit exceeded")]); [reflexivity | simpl; lia | reflexivity].
Defined.

(** ** Reading the token pair *)

Lemma dict_update_Ret d seqs d' :
  dict_update d seqs = Ret d' → Forall (λ seq, length seq = 2%nat) seqs.
Proof.
  intros Hrun. destruct (decide (Forall (λ seq : list string, length seq = 2%nat) seqs))
    as [|Hbad]; [done|].
  rewrite dict_update_bad in Hrun by done. discriminate.
Qed.

(** A binding of the dictionary was there before or comes from a pair. *)
Lemma dict_update_lookup seqs : ∀ d d' k v,
  dict_update d seqs = Ret d' → d' !! k = Some v →
  d !! k = Some v ∨ [k; v] ∈ seqs.
Proof.
  induction seqs as [|seq rest IH]; intros d d' k v Hrun Hlook.
  - injection Hrun as <-. by left.
  - destruct seq as [|k0 [|v0 [|]]]; try discriminate. simpl in Hrun.
    destruct (IH _ _ _ _ Hrun Hlook) as [Hin|Hin]; [|right; by right].
    destruct (decide (k0 = k)) as [->|Hne].
    + rewrite lookup_insert_eq in Hin. injection Hin as ->. right. by left.
    + rewrite lookup_insert_ne in Hin by done. by left.
Qed.

(** Pairs with other keys leave a binding alone. *)
Lemma dict_update_other seqs : ∀ d d' k,
  dict_update d seqs = Ret d' → (∀ v, [k; v] ∉ seqs) → d' !! k = d !! k.
Proof.
  induction seqs as [|seq rest IH]; intros d d' k Hrun Hfree.
  - by injection Hrun as <-.
  - destruct seq as [|k0 [|v0 [|]]]; try discriminate. simpl in Hrun.
    rewrite (IH _ _ _ Hrun).
    + apply lookup_insert_ne. intros ->. apply (Hfree v0). by left.
    + intros v Hin. apply (Hfree v). by right.
Qed.

(** The last pair with a key decides its value. *)
Lemma dict_update_last before : ∀ d d' k v after,
  dict_update d (before ++ [k; v] :: after) = Ret d' →
  (∀ v', [k; v'] ∉ after) → d' !! k = Some v.
Proof.
  induction before as [|seq rest IH]; intros d d' k v after Hrun Hfree.
  - simpl in Hrun. rewrite (dict_update_other _ _ _ _ Hrun Hfree). apply lookup_insert_eq.
  - destruct seq as [|k0 [|v0 [|]]]; try discriminate. simpl in Hrun. by eapply IH.
Qed.

Lemma get_access_token_Ret w username password consumer_key consumer_secret tr t s :
  let req := token_request username password consumer_key consumer_secret in
  let resp := http w (sent tr) req in
  status_code resp = 200 →
  (get_access_token w username password consumer_key consumer_secret tr).2 = Ret (t, s) ↔
  ∃ tokens, dict (map (split "=") (split "&" (text resp))) = Ret tokens ∧
            tokens !! "oauth_token" = Some t ∧ tokens !! "oauth_token_secret" = Some s.
Proof.
  intros req resp Hstatus. rewrite (get_access_token_200 _ _ _ _ _ _ Hstatus).
  fold req. fold resp. cbn [snd]. unfold subscript.
  destruct (dict _) as [tokens| |e].
  - destruct (tokens !! "oauth_token") as [t'|] eqn:Ht.
    + destruct (tokens !! "oauth_token_secret") as [s'|] eqn:Hs.
      * split.
        -- intros [= -> ->]. by exists tokens.
        -- intros (tokens' & [= <-] & Ht' & Hs'). congruence.
      * split; [done|]. intros (tokens' & [= <-] & _ & Hs'). congruence.
    + split; [done|]. intros (tokens' & [= <-] & Ht' & _). congruence.
  - split; [done|]. by intros (? & [=] & _).
  - split; [done|]. by intros (? & [=] & _).
Qed.

Lemma split_key_segment key v :
  count_char "=" key = 0%nat → count_char "=" v = 0%nat →
  split "=" (key +:+ String "=" v) = [key; v].
Proof.
  intros Hk Hv. apply split_key_value; [done|].
  rewrite count_char_app. simpl. lia.
Qed.

(** X5. Reading the token pair: when the token endpoint answers 200 with
    the two fields [oauth_token] and [oauth_token_secret], in either order,
    and the values contain neither [&] nor [=], [get_access_token] sends
    its one request and returns exactly these two values. *)
Theorem token_round_trip w username password consumer_key consumer_secret tr t s :
  let req := token_request username password consumer_key consumer_secret in
  let resp := http w (sent tr) req in
  status_code resp = 200 →
  count_char "&" t = 0%nat → count_char "=" t = 0%nat →
  count_char "&" s = 0%nat → count_char "=" s = 0%nat →
  text resp = "oauth_token=" +:+ t +:+ "&oauth_token_secret=" +:+ s ∨
  text resp = "oauth_token_secret=" +:+ s +:+ "&oauth_token=" +:+ t →
  get_access_token w username password consumer_key consumer_secret tr
  = (tr ++ [Post req resp], Ret (t, s)).
Proof.
  intros req resp Hstatus Hta Hte Hsa Hse Hbody.
  rewrite (get_access_token_200 _ _ _ _ _ _ Hstatus). fold req. fold resp. f_equal.
  assert (split "=" ("oauth_token" +:+ String "=" t) = ["oauth_token"; t]) as Ht
    by (by apply split_key_segment).
  assert (split "=" ("oauth_token_secret" +:+ String "=" s) = ["oauth_token_secret"; s]) as Hs
    by (by apply split_key_segment).
  destruct Hbody as [-> | ->].
  - change ("oauth_token=" +:+ t +:+ "&oauth_token_secret=" +:+ s)
      with (("oauth_token=" +:+ t) +:+ String "&" ("oauth_token_secret=" +:+ s)).
    rewrite split_prefix, split_no_sep.
    + change (map (split "=") ["oauth_token=" +:+ t; "oauth_token_secret=" +:+ s])
        with [split "=" ("oauth_token" +:+ String "=" t);
              split "=" ("oauth_token_secret" +:+ String "=" s)].
      rewrite Ht, Hs. unfold dict, subscript. simpl dict_update. cbv beta iota.
      rewrite lookup_insert_ne by done. rewrite lookup_insert_eq. cbv beta iota.
      by rewrite lookup_insert_eq.
    + rewrite count_char_app. by rewrite Hsa.
    + rewrite count_char_app. by rewrite Hta.
  - change ("oauth_token_secret=" +:+ s +:+ "&oauth_token=" +:+ t)
      with (("oauth_token_secret=" +:+ s) +:+ String "&" ("oauth_token=" +:+ t)).
    rewrite split_prefix, split_no_sep.
    + change (map (split "=") ["oauth_token_secret=" +:+ s; "oauth_token=" +:+ t])
        with [split "=" ("oauth_token_secret" +:+ String "=" s);
              split "=" ("oauth_token" +:+ String "=" t)].
      rewrite Ht, Hs. unfold dict, subscript. simpl dict_update. cbv beta iota.
      rewrite lookup_insert_eq. cbv beta iota. rewrite lookup_insert_ne by done.
      by rewrite lookup_insert_eq.
    + rewrite count_char_app. by rewrite Hta.
    + rewrite count_char_app. by rewrite Hsa.
Qed.

Lemma token_round_trip_witness :
  get_access_token scenario_a (VStr "reader@example.org") (VStr "") (VStr "key")
    (VStr "secret") [authenticating]
  = ([authenticating] ++ [Post example_token_request token_ok], Ret ("tok", "sec")).
Proof.
  apply (token_round_trip scenario_a (VStr "reader@example.org") (VStr "") (VStr "key")
           (VStr "secret") [authenticating] "tok" "sec"); try reflexivity.
  left. reflexivity.
Defined.

Lemma last_segment_wins key segments tokens before after v :
  count_char "=" key = 0%nat →
  dict (map (split "=") segments) = Ret tokens →
  segments = before ++ (key +:+ String "=" v) :: after →
  (∀ v', key +:+ String "=" v' ∉ after) →
  tokens !! key = Some v.
Proof.
  intros Hkey Hdict -> Hlast. unfold dict in Hdict.
  pose proof (dict_update_Ret _ _ _ Hdict) as Hlen. apply segments_lengths in Hlen.
  rewrite map_app in Hdict. cbn [map] in Hdict.
  rewrite split_key_value in Hdict; [|done|].
  - eapply dict_update_last; [exact Hdict|]. intros v' Hin.
    apply list_elem_of_fmap in Hin as (seg & Hsplit & Hin).
    symmetry in Hsplit. apply split_two in Hsplit. subst seg. by apply (Hlast v').
  - rewrite Forall_forall in Hlen. apply Hlen. apply elem_of_app. right. by left.
Qed.

Lemma binding_is_a_segment key segments tokens v :
  dict (map (split "=") segments) = Ret tokens →
  tokens !! key = Some v →
  key +:+ String "=" v ∈ segments.
Proof.
  intros Hdict Hlook. unfold dict in Hdict.
  destruct (dict_update_lookup _ _ _ _ _ Hdict Hlook) as [Hin|Hin].
  - by rewrite lookup_empty in Hin.
  - apply list_elem_of_fmap in Hin as (seg & Hsplit & Hin).
    symmetry in Hsplit. apply split_two in Hsplit. by subst seg.
Qed.

(** X6. Whatever [get_access_token] returns is read off the body: if it
    returns the pair (t, s) on a 200 response, then [oauth_token=t] and
    [oauth_token_secret=s] are segments of the body between [&], taken
    verbatim (nothing is percent-decoded or trimmed), and when a key is
    repeated the value of its last segment is the one returned. *)
Theorem token_values_come_from_the_body
    w username password consumer_key consumer_secret tr t s :
  let req := token_request username password consumer_key consumer_secret in
  let resp := http w (sent tr) req in
  let segments := split "&" (text resp) in
  status_code resp = 200 →
  (get_access_token w username password consumer_key consumer_secret tr).2 = Ret (t, s) →
  "oauth_token=" +:+ t ∈ segments ∧
  "oauth_token_secret=" +:+ s ∈ segments ∧
  (∀ before after v,
     segments = before ++ ("oauth_token=" +:+ v) :: after →
     (∀ v', "oauth_token=" +:+ v' ∉ after) → t = v) ∧
  (∀ before after v,
     segments = before ++ ("oauth_token_secret=" +:+ v) :: after →
     (∀ v', "oauth_token_secret=" +:+ v' ∉ after) → s = v).
Proof.
  intros req resp segments Hstatus Hret.
  apply (get_access_token_Ret _ _ _ _ _ _ _ _ Hstatus) in Hret
    as (tokens & Hdict & Ht & Hs). fold req resp segments in Hdict.
  split; [by apply (binding_is_a_segment "oauth_token" _ tokens)|].
  split; [by apply (binding_is_a_segment "oauth_token_secret" _ tokens)|].
  split; intros before after v Hsegs Hlast.
  - assert (tokens !! "oauth_token" = Some v) as Hv
      by (by eapply (last_segment_wins "oauth_token")).
    congruence.
  - assert (tokens !! "oauth_token_secret" = Some v) as Hv
      by (by eapply (last_segment_wins "oauth_token_secret")).
    congruence.
Qed.

Lemma token_values_come_from_the_body_witness :
  let segments := ["oauth_token=stale"; "oauth_token_secret=sec"; "oauth_token=tok"] in
  "oauth_token=tok" ∈ segments ∧
  "oauth_token_secret=sec" ∈ segments ∧
  (∀ before after v,
     segments = before ++ ("oauth_token=" +:+ v) :: after →
     (∀ v', "oauth_token=" +:+ v' ∉ after) → "tok" = v) ∧
  (∀ before after v,
     segments = before ++ ("oauth_token_secret=" +:+ v) :: after →
     (∀ v', "oauth_token_secret=" +:+ v' ∉ after) → "sec" = v).
Proof.
  apply (token_values_come_from_the_body scenario_repeated_key (VStr "reader@example.org")
           (VStr "") (VStr "key") (VStr "secret") [authenticating] "tok" "sec");
    reflexivity.
Defined.

(** ** The archiving loop on arbitrary records *)

(** A record without identifier ends the loop where it stands. *)
Lemma archive_all_no_id w sess bookmark rest a f tr :
  id_of bookmark = None →
  ∃ e, getitem bookmark "bookmark_id" = Raise e ∧
       archive_all w sess (bookmark :: rest) a f tr = (tr, Raise e) ∧
       (∀ items, bookmark = VDict items → e = KeyError "bookmark_id").
Proof.
  intros Hid. cbn [archive_all]. exec.
  destruct bookmark as [| | | | | |items]; simpl getitem; exec;
    try (eexists; split; [reflexivity|]; split; [reflexivity|]; by intros ? [=]).
  simpl in Hid. rewrite Hid. exec.
  eexists; split; [reflexivity|]; split; [reflexivity|]. done.
Qed.

(** The loop over a concatenation is the loop over the first part followed,
    when that returns, by the loop over the second from its counters. *)
Lemma archive_all_app w sess first : ∀ second a f tr,
  archive_all w sess (first ++ second) a f tr
  = match archive_all w sess first a f tr with
    | (tr', Ret (a', f')) => archive_all w sess second a' f' tr'
    | (tr', Exit code) => (tr', Exit code)
    | (tr', Raise e) => (tr', Raise e)
    end.
Proof.
  induction first as [|bookmark rest IH]; intros second a f tr; [done|].
  destruct (id_of bookmark) as [bookmark_id|] eqn:Hid.
  - rewrite <- app_comm_cons, !(archive_all_step _ _ _ _ _ _ _ _ Hid). apply IH.
  - rewrite <- app_comm_cons.
    destruct (archive_all_no_id w sess bookmark (rest ++ second) a f tr Hid)
      as (e & He & -> & _).
    destruct (archive_all_no_id w sess bookmark rest a f tr Hid) as (e' & He' & -> & _).
    congruence.
Qed.

(** X7. The archiving loop of lines 142-151 stops at the first old record
    without [bookmark_id]: the old records before it are attempted, one
    request and one line each, then [KeyError] is raised; the records
    after it are not attempted and no summary is printed. *)
Theorem record_without_id_stops_the_loop w oauth_session bookmarks before bad after tr :
  min_timestamp * second ≤ cutoff w →
  Forall timed bookmarks →
  List.filter (older_than_cutoff w) bookmarks = before ++ bad :: after →
  Forall (λ bookmark, is_Some (id_of bookmark)) before →
  id_of bad = None →
  ∃ resps,
    length resps = length before ∧
    main_archive w oauth_session (VList bookmarks) tr
    = (tr ++ found_old (Z.of_nat (length (before ++ bad :: after)))
          :: concat (zip_with (attempt_events oauth_session) before resps),
       Raise (KeyError "bookmark_id")) ∧
    attempts (concat (zip_with (attempt_events oauth_session) before resps)) = resps.
Proof.
  intros Hclock Htimed Hold Hids Hbad.
  unfold main_archive. exec. rewrite main_old_bookmarks_filter by done. rewrite Hold. exec.
  fold (found_old (Z.of_nat (length (before ++ bad :: after)))).
  set (tr1 := tr ++ [found_old _]).
  destruct (archive_all_complete w oauth_session before 0 0 tr1 Hids)
    as (resps & Hlen & _ & Hrun & _).
  exists resps. split; [done|]. split; [|by apply attempts_attempt_events].
  assert (∃ items, bad = VDict items) as [items ->].
  { assert (bad ∈ List.filter (older_than_cutoff w) bookmarks) as Hin
      by (rewrite Hold; apply elem_of_app; right; by left).
    apply list_elem_of_In, filter_In in Hin as [_ Hin]. unfold older_than_cutoff in Hin.
    destruct bad; try discriminate. by eexists. }
  destruct (archive_all_no_id w oauth_session (VDict items) after
              (0 + count_succeeded resps) (0 + count_failed resps)
              (tr1 ++ concat (zip_with (attempt_events oauth_session) before resps)) Hbad)
    as (e & _ & Hstop & Hkey).
  rewrite (Hkey items eq_refl) in Hstop.
  assert (archive_all w oauth_session (before ++ VDict items :: after) 0 0 tr1
          = (tr1 ++ concat (zip_with (attempt_events oauth_session) before resps),
             Raise (KeyError "bookmark_id"))) as Hloop.
  { by rewrite archive_all_app, Hrun. }
  destruct (before ++ VDict items :: after) as [|b l] eqn:Hlist.
  { by destruct before. }
  rewrite <- Hlist in *. exec. rewrite Hloop. subst tr1.
  by rewrite <- app_assoc, <- ?Hlist.
Qed.

Lemma record_without_id_stops_the_loop_witness :
  ∃ resps,
    length resps = 1%nat ∧
    main_archive scenario_gap example_session (VList bookmarks_with_gap) []
    = ([] ++ found_old 3
          :: concat (zip_with (attempt_events example_session)
                       [record 1 1699999999 "Older"] resps),
       Raise (KeyError "bookmark_id")) ∧
    attempts (concat (zip_with (attempt_events example_session)
                        [record 1 1699999999 "Older"] resps)) = resps.
Proof.
  apply (record_without_id_stops_the_loop scenario_gap example_session bookmarks_with_gap
           [record 1 1699999999 "Older"] record_without_id
           [record 3 1600000000 "Much older"] []).
  - vm_compute. discriminate.
  - timed_records.
  - reflexivity.
  - repeat constructor; by eexists.
  - reflexivity.
Defined.

(** ** Anatomy of a run: what is sent, and for which records *)

Lemma sent_app tr1 tr2 : sent (tr1 ++ tr2) = sent tr1 ++ sent tr2.
Proof. apply omap_app. Qed.

Lemma stderr_lines_app tr1 tr2 :
  stderr_lines (tr1 ++ tr2) = stderr_lines tr1 ++ stderr_lines tr2.
Proof. apply omap_app. Qed.

Lemma sent_elem_of tr r resp : Post r resp ∈ tr → r ∈ sent tr.
Proof.
  intros Hin. unfold sent. apply list_elem_of_omap. by exists (Post r resp).
Qed.

(** Whatever the records are: the loop sends one archive request per record
    it reaches, never exits, and writes one line to stderr per failure. *)
Lemma archive_all_requests w sess old : ∀ a f tr,
  ∃ evs ids,
    (archive_all w sess old a f tr).1 = tr ++ evs ∧
    sent evs = map (archive_request sess) ids ∧
    Forall (λ bookmark_id, ∃ bookmark, bookmark ∈ old ∧ id_of bookmark = Some bookmark_id) ids ∧
    Z.of_nat (length (stderr_lines evs)) = failures evs ∧
    (∀ code, (archive_all w sess old a f tr).2 ≠ Exit code).
Proof.
  induction old as [|bookmark rest IH]; intros a f tr.
  - exists [], []. simpl. rewrite app_nil_r. by repeat split.
  - destruct (id_of bookmark) as [bookmark_id|] eqn:Hid.
    + rewrite (archive_all_step _ _ _ _ _ _ _ _ Hid).
      set (resp := http w (sent tr) (archive_request sess bookmark_id)).
      set (tr1 := tr ++ _).
      destruct (IH (if succeeded resp then a + 1 else a)
                   (if succeeded resp then f else f + 1) tr1)
        as (evs & ids & Htr & Hsent & Hids & Herr & Hexit).
      exists (Post (archive_request sess bookmark_id) resp :: attempt_log bookmark resp :: evs),
             (bookmark_id :: ids).
      split. { rewrite Htr. subst tr1. by rewrite <- app_assoc. }
      split. { unfold attempt_log. destruct (succeeded resp); simpl; by rewrite <- Hsent. }
      split. { constructor; [exists bookmark; split; [by left|done]|].
               eapply Forall_impl; [exact Hids|]. intros id (b & Hb & Hb').
               exists b. split; [by right|done]. }
      split; [|done].
      unfold failures in *. rewrite attempts_post by done.
      unfold attempt_log. destruct (succeeded resp) eqn:Hok.
      * rewrite attempts_print. simpl. rewrite Hok. simpl. exact Herr.
      * rewrite attempts_print. simpl. rewrite Hok. simpl. lia.
    + destruct (archive_all_no_id w sess bookmark rest a f tr Hid) as (e & _ & -> & _).
      exists [], []. simpl. rewrite app_nil_r. by repeat split.
Qed.

(** When lines 122-130 return, the records kept are listed records whose
    instant is before the cutoff. *)
Lemma main_old_bookmarks_Ret w bookmarks tr tr' old :
  main_old_bookmarks w bookmarks tr = (tr', Ret old) →
  ∀ bookmark, bookmark ∈ old →
    kept (cutoff w) bookmark = true ∧
    ∃ listed, bookmarks = VList listed ∧ bookmark ∈ listed.
Proof.
  unfold main_old_bookmarks. exec. unfold datetime_sub. fold (cutoff w).
  destruct (_ <=? _); exec; [|done].
  destruct (iter bookmarks) as [items| |e] eqn:Hiter; exec; [|done..].
  intros Hrun b Hin. apply select_old_Ret in Hrun as [-> _].
  simpl in Hin. apply list_elem_of_In, filter_In in Hin as [Hin Hold].
  split; [done|]. apply list_elem_of_In in Hin.
  destruct bookmarks as [| | | |s|listed|kvs]; simpl in Hiter; try discriminate;
    injection Hiter as <-.
  - exfalso. clear -Hin Hold. induction s as [|c s IH]; simpl in Hin.
    + by apply elem_of_nil in Hin.
    + apply elem_of_cons in Hin as [->|Hin]; [discriminate|by apply IH].
  - by exists listed.
  - exfalso. apply list_elem_of_fmap in Hin as (kv & -> & _). discriminate.
Qed.

Lemma archive_all_anatomy w sess old a f tr :
  ∃ evs ids,
    (archive_all w sess old a f tr).1 = tr ++ evs ∧
    Forall (λ e, loop_event e = true) evs ∧
    sent evs = map (archive_request sess) ids ∧
    Forall (λ bookmark_id, ∃ bookmark, bookmark ∈ old ∧ id_of bookmark = Some bookmark_id) ids ∧
    Z.of_nat (length (stderr_lines evs)) = failures evs ∧
    match (archive_all w sess old a f tr).2 with
    | Ret (a', f') => a' = a + successes evs ∧ f' = f + failures evs
    | Exit _ => False
    | Raise _ => True
    end.
Proof.
  destruct (archive_all_requests w sess old a f tr) as (evs & ids & Htr & Hsent & Hids & Herr & _).
  destruct (archive_all_events w sess old a f tr) as (evs' & Htr' & Hloop & Hcount).
  assert (evs' = evs) as -> by (apply (app_inv_head tr); congruence).
  by exists evs, ids.
Qed.

Lemma summary_among evs last_event a f :
  Forall (λ e, no_summary e = true) evs →
  Print Stdout (summary a f) ∈ evs ++ [last_event] →
  last_event = Print Stdout (summary a f).
Proof.
  intros Hno Hin. apply elem_of_app in Hin as [Hin|Hin].
  - by apply (no_summary_not_elem _ a f) in Hno.
  - by apply list_elem_of_singleton in Hin.
Qed.

Lemma select_old_no_exit c bookmarks : ∀ old tr tr' code,
  select_old c bookmarks old tr ≠ (tr', Exit code).
Proof.
  induction bookmarks as [|b rest IH]; intros old tr tr' code; [done|].
  cbn [select_old]. exec.
  destruct (getitem b "time") as [t| |] eqn:Hget; exec; [|by apply getitem_no_exit in Hget|done].
  destruct (fromtimestamp t) as [n| |] eqn:Hfrom; exec;
    [|by apply fromtimestamp_no_exit in Hfrom|done].
  destruct (n <? c); apply IH.
Qed.

Lemma main_old_bookmarks_no_exit w bookmarks tr tr' code :
  main_old_bookmarks w bookmarks tr ≠ (tr', Exit code).
Proof.
  unfold main_old_bookmarks. exec. unfold datetime_sub. destruct (_ <=? _); exec; [|done].
  destruct bookmarks; simpl iter; exec; try done; apply select_old_no_exit.
Qed.

(** Lines 122-156: what is sent are archive requests for listed records
    older than the cutoff; the block returns, exits with 1 or raises; when
    it prints a summary, stderr holds one line per failed attempt. *)
Lemma main_archive_anatomy w sess bookmarks tr :
  ∃ evs ids,
    (main_archive w sess bookmarks tr).1 = tr ++ evs ∧
    sent evs = map (archive_request sess) ids ∧
    Forall (λ bookmark_id, ∃ listed bookmark,
              bookmarks = VList listed ∧ bookmark ∈ listed ∧
              kept (cutoff w) bookmark = true ∧
              id_of bookmark = Some bookmark_id) ids ∧
    ((main_archive w sess bookmarks tr).2 = Ret tt ∨
     (main_archive w sess bookmarks tr).2 = Exit 1 ∨
     ∃ e, (main_archive w sess bookmarks tr).2 = Raise e) ∧
    (∀ a f, Print Stdout (summary a f) ∈ evs → Z.of_nat (length (stderr_lines evs)) = f).
Proof.
  unfold main_archive. rewrite bind_run.
  pose proof (main_old_bookmarks_trace w bookmarks tr) as Htr.
  destruct (main_old_bookmarks w bookmarks tr) as [tr1 [old| |e]] eqn:Hold;
    simpl in Htr; subst tr1.
  2: { by apply main_old_bookmarks_no_exit in Hold. }
  2: { exists [], []. simpl. rewrite app_nil_r. repeat split; try done.
       - right. right. by eexists.
       - intros a f Hin. by apply elem_of_nil in Hin. }
  pose proof (main_old_bookmarks_Ret w bookmarks tr tr old Hold) as Hkept.
  exec. fold (found_old (Z.of_nat (length old))). destruct old as [|b rest].
  { exec. exists [found_old (Z.of_nat (length (@nil value))); nothing_to_archive], [].
    cbn [fst snd]. rewrite <- app_assoc. repeat split; try done; [by left|].
    intros a f Hin. repeat (apply elem_of_cons in Hin as [Hin|Hin]; [done|]).
    by apply elem_of_nil in Hin. }
  exec. set (old := b :: rest) in *. set (tr1 := tr ++ [found_old _]).
  destruct (archive_all_anatomy w sess old 0 0 tr1)
    as (evs & ids & Hevs & Hloop & Hsent & Hids & Herr & Hcount).
  assert (Forall (λ bookmark_id, ∃ listed bookmark,
              bookmarks = VList listed ∧ bookmark ∈ listed ∧
              kept (cutoff w) bookmark = true ∧
              id_of bookmark = Some bookmark_id) ids) as Hids'.
  { eapply Forall_impl; [exact Hids|]. intros id (b' & Hin & Hid).
    destruct (Hkept b' Hin) as (Hold' & listed & -> & Hlisted). by exists listed, b'. }
  assert (Forall (λ e, no_summary e = true) evs) as Hno.
  { eapply Forall_impl; [exact Hloop|]. apply loop_event_no_summary. }
  destruct (archive_all w sess old 0 0 tr1) as [tr2 [[a f]| |e]];
    simpl in Hevs, Hcount; subst tr2; exec; [|done|].
  - destruct Hcount as [Ha Hf].
    exists (found_old (Z.of_nat (length old)) :: evs ++ [Print Stdout (summary a f)]), ids.
    split. { destruct (0 <? f); exec; subst tr1; cbn [fst]; by rewrite <- !app_assoc. }
    split. { simpl. rewrite sent_app. simpl. by rewrite app_nil_r. }
    split; [done|].
    split. { destruct (0 <? f); exec; cbn [snd]; [right; by left|by left]. }
    intros a' f' Hin. apply elem_of_cons in Hin as [Hin|Hin]; [done|].
    apply summary_among in Hin; [|done].
    assert (f' = f) as -> by (symmetry; apply (summary_inj a f a' f'); congruence).
    simpl. rewrite stderr_lines_app. simpl. rewrite app_nil_r. lia.
  - exists (found_old (Z.of_nat (length old)) :: evs), ids.
    split. { subst tr1. cbn [fst]. by rewrite <- app_assoc. }
    split; [done|]. split; [done|]. split; [right; right; by eexists|].
    intros a f Hin. apply elem_of_cons in Hin as [Hin|Hin]; [done|].
    by apply (no_summary_not_elem _ a f) in Hno.
Qed.

Lemma len_no_exit obj code : len obj ≠ Exit code.
Proof. by destruct obj. Qed.

Lemma slice_from_1_list data listed :
  slice_from_1 data = Ret (VList listed) → ∃ listing, data = VList listing ∧ listed = drop 1 listing.
Proof.
  destruct data as [| | | | |listing|]; try discriminate. intros [= <-].
  exists listing. split; [done|]. by destruct listing.
Qed.

(** The lister sends its one request, whatever the answer; it returns or
    raises; a list it returns is empty or the tail of the decoded array. *)
Lemma get_newsletter_bookmarks_anatomy w sess tr :
  let resp := http w (sent tr) (list_request sess) in
  ∃ errs,
    (get_newsletter_bookmarks w sess tr).1 = tr ++ Post (list_request sess) resp :: errs ∧
    sent errs = [] ∧
    (∀ a f, Print Stdout (summary a f) ∉ errs) ∧
    (∀ code, (get_newsletter_bookmarks w sess tr).2 ≠ Exit code) ∧
    (∀ bookmarks, (get_newsletter_bookmarks w sess tr).2 = Ret bookmarks →
       truthy bookmarks = true →
       errs = [] ∧
       ∀ listed, bookmarks = VList listed →
         status_code resp = 200 ∧
         ∃ listing, json resp = Some (VList listing) ∧ listed = drop 1 listing).
Proof.
  intros resp. destruct (decide (status_code resp = 200)) as [Hstatus|Hstatus].
  - rewrite (get_newsletter_bookmarks_decoded _ _ _ Hstatus). fold resp.
    exists []. destruct (json resp) as [data|] eqn:Hjson; cbn [fst snd].
    2: { repeat split; try done. intros a f Hin. by apply elem_of_nil in Hin. }
    split; [done|]. split; [done|].
    split. { intros a f Hin. by apply elem_of_nil in Hin. }
    destruct (len data) as [n| |e] eqn:Hlen; [|by apply len_no_exit in Hlen|by split].
    destruct (1 <? n).
    + split. { destruct data; done. }
      intros bookmarks Hslice _. split; [done|]. intros listed ->.
      apply slice_from_1_list in Hslice as (listing & -> & ->). split; [done|]. by eexists.
    + split; [done|]. by intros bookmarks [= <-] [=].
  - rewrite (get_newsletter_bookmarks_failed _ _ _ Hstatus). fold resp.
    exists (fetch_error resp). cbn [fst snd]. split; [done|]. split; [done|].
    split. { intros a f Hin. repeat (apply elem_of_cons in Hin as [Hin|Hin]; [done|]).
             by apply elem_of_nil in Hin. }
    split; [done|]. by intros bookmarks [= <-] [=].
Qed.

(** Lines 114-156: one listing request, then archive requests for records
    of that listing older than the cutoff. *)
Lemma main_bookmarks_anatomy w sess tr :
  let resp := http w (sent tr) (list_request sess) in
  ∃ evs ids,
    (main_bookmarks w sess tr).1 = tr ++ fetching :: Post (list_request sess) resp :: evs ∧
    sent evs = map (archive_request sess) ids ∧
    Forall (λ bookmark_id, ∃ listing bookmark,
              status_code resp = 200 ∧ json resp = Some (VList listing) ∧
              bookmark ∈ drop 1 listing ∧
              kept (cutoff w) bookmark = true ∧
              id_of bookmark = Some bookmark_id) ids ∧
    ((main_bookmarks w sess tr).2 = Ret tt ∨
     (main_bookmarks w sess tr).2 = Exit 1 ∨
     ∃ e, (main_bookmarks w sess tr).2 = Raise e) ∧
    (∀ a f, Print Stdout (summary a f) ∈ evs → Z.of_nat (length (stderr_lines evs)) = f).
Proof.
  intros resp. unfold main_bookmarks. exec. fold fetching.
  destruct (get_newsletter_bookmarks_anatomy w sess (tr ++ [fetching]))
    as (errs & Htr & Hquiet & Hnosum & Hnoexit & Hret).
  unfold fetching in Htr, Hret at 1 2 3. rewrite sent_snoc_print in Htr, Hret.
  fold fetching in Htr, Hret. fold resp in Htr, Hret.
  destruct (get_newsletter_bookmarks w sess (tr ++ [fetching])) as [tr1 [bookmarks| |e]];
    cbn [fst snd] in Htr, Hret, Hnoexit; subst tr1; exec.
  2: { by destruct (Hnoexit code). }
  2: { exists errs, []. cbn [fst snd]. rewrite <- app_assoc. repeat split; try done.
       - right. right. by eexists.
       - intros a f Hin. by apply Hnosum in Hin. }
  destruct (len bookmarks) as [n| |e] eqn:Hlen; exec.
  2: { by apply len_no_exit in Hlen. }
  2: { exists errs, []. cbn [fst snd]. rewrite <- app_assoc. repeat split; try done.
       - right. right. by eexists.
       - intros a f Hin. by apply Hnosum in Hin. }
  fold (found_tagged n). destruct (truthy bookmarks) eqn:Htruthy; cbv [negb]; exec.
  - destruct (Hret bookmarks eq_refl Htruthy) as [-> Hlisted].
    set (tr1 := (_ ++ _) ++ [found_tagged n]).
    destruct (main_archive_anatomy w sess bookmarks tr1)
      as (evs & ids & Hevs & Hsent & Hids & Hout & Herr).
    exists (found_tagged n :: evs), ids.
    split. { rewrite Hevs. subst tr1. by rewrite <- !app_assoc. }
    split; [done|].
    split. { eapply Forall_impl; [exact Hids|].
             intros id (listed & b & -> & Hin & Hold & Hid).
             destruct (Hlisted listed eq_refl) as (Hstatus & listing & Hjson & ->).
             by exists listing, b. }
    split; [done|].
    intros a f Hin. apply elem_of_cons in Hin as [Hin|Hin]; [done|]. simpl. by apply (Herr a).
  - exists (errs ++ [found_tagged n; nothing_to_process]), [].
    cbn [fst snd]. split. { by rewrite <- !app_assoc. }
    split. { rewrite sent_app, Hquiet. done. }
    split; [done|]. split; [by left|].
    intros a f Hin. apply elem_of_app in Hin as [Hin|Hin]; [by apply Hnosum in Hin|].
    repeat (apply elem_of_cons in Hin as [Hin|Hin]; [done|]). by apply elem_of_nil in Hin.
Qed.

(** Without usable credentials nothing is sent and no summary is printed. *)
Lemma main_session_no_credentials w :
  credentials w = None →
  sent (main_session w []).1 = [] ∧
  (∀ a f, Print Stdout (summary a f) ∉ (main_session w []).1) ∧
  ((main_session w []).2 = Exit 1 ∨ ∃ e, (main_session w []).2 = Raise e).
Proof.
  intros Hcred. unfold credentials in Hcred. unfold main_session, load_config.
  assert (∀ (A : Type) (e : exn),
            let r : trace * outcome A := ([], Raise e) in
            sent r.1 = [] ∧
            (∀ a f, Print Stdout (summary a f) ∉ r.1) ∧
            (r.2 = Exit 1 ∨ ∃ e', r.2 = Raise e')) as Hraise.
  { intros A e. cbn [fst snd]. split; [done|]. split; [|right; by eexists].
    intros a f Hin. by apply elem_of_nil in Hin. }
  destruct (config_source w) as [| |v]; exec.
  - cbn [fst snd]. split; [done|]. split; [|by left].
    intros a f Hin. repeat (apply elem_of_cons in Hin as [Hin|Hin]; [done|]).
    by apply elem_of_nil in Hin.
  - apply Hraise.
  - destruct v as [| | | | | |items]; simpl getitem; exec; try apply Hraise.
    destruct (lookup_item "consumer_key" items); exec; [|apply Hraise].
    destruct (lookup_item "consumer_secret" items); exec; [|apply Hraise].
    destruct (lookup_item "username" items); exec; [|apply Hraise].
    discriminate.
Qed.

Lemma dict_update_no_exit seqs : ∀ d code, dict_update d seqs ≠ Exit code.
Proof.
  induction seqs as [|seq rest IH]; intros d code; [done|].
  destruct seq as [|k [|v [|]]]; try done. simpl. apply IH.
Qed.

(** With credentials, the token exchange is the one request of lines
    93-112; they end in [sys.exit(1)], an exception, or the session built
    from the pair that [get_access_token] returned. *)
Lemma main_session_cases w username password consumer_key consumer_secret :
  credentials w = Some (username, password, consumer_key, consumer_secret) →
  let req := token_request username password consumer_key consumer_secret in
  let resp := http w [] req in
  (main_session w [] = (authenticating :: Post req resp :: token_error resp, Exit 1)) ∨
  (∃ e, main_session w [] = ([authenticating; Post req resp], Raise e)) ∨
  (∃ t s,
     get_access_token w username password consumer_key consumer_secret [authenticating]
       = ([authenticating; Post req resp], Ret (t, s)) ∧
     main_session w []
       = ([authenticating; Post req resp],
          Ret (OAuth1Session consumer_key consumer_secret (Some t) (Some s)))).
Proof.
  intros Hcred req resp. rewrite (main_session_credentials _ _ _ _ _ Hcred).
  destruct (decide (status_code resp = 200)) as [Hstatus|Hstatus].
  - pose proof (get_access_token_200 w username password consumer_key consumer_secret
                  [authenticating] Hstatus) as Hrun.
    fold req resp in Hrun. rewrite Hrun. unfold subscript.
    destruct (dict _) as [tokens| |e] eqn:Hdict.
    + destruct (tokens !! "oauth_token") as [t|].
      * destruct (tokens !! "oauth_token_secret") as [s|].
        -- right. right. by exists t, s.
        -- right. left. by eexists.
      * right. left. by eexists.
    + by apply dict_update_no_exit in Hdict.
    + right. left. by eexists.
  - left. by rewrite (get_access_token_failed _ _ _ _ _ [authenticating] Hstatus).
Qed.

Lemma elem_of_4 {A} (x a b c d : A) (l : list A) :
  x ∈ a :: b :: c :: d :: l → x = a ∨ x = b ∨ x = c ∨ x = d ∨ x ∈ l.
Proof. rewrite !elem_of_cons. tauto. Qed.

(** The three courses of a run. *)
Lemma run_anatomy w :
  (credentials w = None ∧
   sent (run w).1 = [] ∧
   (∀ a f, Print Stdout (summary a f) ∉ (run w).1) ∧
   ((run w).2 = Exit 1 ∨ ∃ e, (run w).2 = Raise e)) ∨
  ∃ username password consumer_key consumer_secret,
    credentials w = Some (username, password, consumer_key, consumer_secret) ∧
    let req := token_request username password consumer_key consumer_secret in
    ((sent (run w).1 = [req] ∧
      (∀ a f, Print Stdout (summary a f) ∉ (run w).1) ∧
      ((run w).2 = Exit 1 ∨ ∃ e, (run w).2 = Raise e)) ∨
     ∃ t s evs ids,
       let oauth_session := OAuth1Session consumer_key consumer_secret (Some t) (Some s) in
       let listed := http w [req] (list_request oauth_session) in
       (get_access_token w username password consumer_key consumer_secret [authenticating]).2
         = Ret (t, s) ∧
       (run w).1 = authenticating :: Post req (http w [] req) :: fetching
                     :: Post (list_request oauth_session) listed :: evs ∧
       sent evs = map (archive_request oauth_session) ids ∧
       Forall (λ bookmark_id, ∃ listing bookmark,
                 status_code listed = 200 ∧ json listed = Some (VList listing) ∧
                 bookmark ∈ drop 1 listing ∧
                 kept (cutoff w) bookmark = true ∧
                 id_of bookmark = Some bookmark_id) ids ∧
       ((run w).2 = Ret tt ∨ (run w).2 = Exit 1 ∨ ∃ e, (run w).2 = Raise e) ∧
       (∀ a f, Print Stdout (summary a f) ∈ evs → Z.of_nat (length (stderr_lines evs)) = f)).
Proof.
  destruct (credentials w) as [[[[username password] consumer_key] consumer_secret]|] eqn:Hcred.
  2: { left. split; [done|]. rewrite run_main.
       destruct (main_session_no_credentials w Hcred) as (Hsent & Hnosum & Hout).
       destruct (main_session w []) as [tr [sess| |e]]; cbn [fst snd] in *.
       - by destruct Hout as [|[? ?]].
       - split; [done|]. split; [done|]. left. destruct Hout as [[= ->]|[? [=]]]. done.
       - split; [done|]. split; [done|]. right. by eexists. }
  right. exists username, password, consumer_key, consumer_secret. split; [done|].
  intros req. rewrite run_main.
  destruct (main_session_cases w _ _ _ _ Hcred) as [Hrun|[[e Hrun]|(t & s & Htok & Hrun)]];
    fold req in Hrun; rewrite Hrun.
  - left. cbn [fst snd]. split; [done|]. split; [|by left].
    intros a f Hin. apply elem_of_4 in Hin as [?|[?|[?|[?|Hin]]]]; try done.
    by apply elem_of_nil in Hin.
  - left. cbn [fst snd]. split; [done|]. split; [|right; by eexists].
    intros a f Hin. repeat (apply elem_of_cons in Hin as [Hin|Hin]; [done|]).
    by apply elem_of_nil in Hin.
  - right. set (sess := OAuth1Session consumer_key consumer_secret (Some t) (Some s)).
    destruct (main_bookmarks_anatomy w sess [authenticating; Post req (http w [] req)])
      as (evs & ids & Htr & Hrest).
    exists t, s, evs, ids. cbn zeta. split; [by rewrite Htok|]. split; [exact Htr|].
    exact Hrest.
Qed.

(** ** What every run does *)

(** A record the filter keeps has a number for its [time], and that number
    is strictly before the cutoff. *)
Lemma kept_before c bookmark :
  kept c bookmark = true →
  ∃ t, time_field bookmark = Some t ∧ seconds_cmp t c = Some Lt.
Proof.
  unfold kept. destruct (moment_of bookmark) as [μ|] eqn:Hμ; [|done]. intros Hlt%Z.ltb_lt.
  assert (∃ t, time_field bookmark = Some t ∧ is_Some (seconds_cmp t c)) as (t & Ht & [cmp Hcmp]).
  { unfold moment_of in Hμ. destruct bookmark as [| | | | | |items]; try discriminate.
    unfold getitem in Hμ. simpl. destruct (lookup_item "time" items) as [t|]; [|done].
    exists t. split; [done|]. destruct t as [| | |[]| | |]; try discriminate; by eexists. }
  exists t. split; [done|]. rewrite Hcmp.
  destruct (moment_bounds bookmark t μ Ht Hμ) as [_ Hbounds].
  destruct (Hbounds c) as [_ Hlate]. unfold at_least in Hlate. rewrite Hcmp in Hlate.
  destruct cmp; [|done|]; (assert (c ≤ μ) by (apply Hlate; auto)); lia.
Qed.

(** X8.  Whatever the configuration, the clock and the service do, every
    request a run sends to the archive endpoint is for a bookmark that
    the listing response of this run (status 200, a JSON array) holds
    after its first element, whose [time] is a number strictly less than
    the clock reading minus 7 days (in seconds, compared exactly, also
    when the number has a fraction), and carries that bookmark's
    [bookmark_id], signed with the session of the listing request. *)
Theorem only_old_listed_bookmarks_are_archived w r resp :
  Post r resp ∈ (run w).1 →
  url r = archive_url →
  ∃ oauth_session listed listing bookmark bookmark_id t,
    Post (list_request oauth_session) listed ∈ (run w).1 ∧
    status_code listed = 200 ∧
    json listed = Some (VList listing) ∧
    bookmark ∈ drop 1 listing ∧
    time_field bookmark = Some t ∧
    seconds_cmp t (now w - 7 * 86400 * 1000000) = Some Lt ∧
    (∀ n, time_of bookmark = Some n → n * second < now w - days 7) ∧
    id_of bookmark = Some bookmark_id ∧
    r = archive_request oauth_session bookmark_id.
Proof.
  intros Hin Hurl. pose proof (sent_elem_of _ _ _ Hin) as Hsent.
  destruct (run_anatomy w)
    as [(_ & Hnone & _)|(u & p & ck & cs & _ & [(Hone & _)|(t & s & evs & ids & Hrun)])].
  - rewrite Hnone in Hsent. by apply elem_of_nil in Hsent.
  - rewrite Hone in Hsent. apply list_elem_of_singleton in Hsent. by subst r.
  - cbn zeta in Hrun. destruct Hrun as (_ & Htr & Hevs & Hids & _).
    set (sess := OAuth1Session ck cs (Some t) (Some s)) in *.
    set (listed := http w [token_request u p ck cs] (list_request sess)) in *.
    rewrite Htr in Hin. apply elem_of_4 in Hin as [?|[Hin|[?|[Hin|Hin]]]]; try done.
    + injection Hin as -> _. done.
    + injection Hin as -> _. done.
    + apply sent_elem_of in Hin. rewrite Hevs in Hin.
      apply list_elem_of_fmap in Hin as (id & -> & Hid).
      rewrite Forall_forall in Hids.
      destruct (Hids id Hid) as (listing & b & Hstatus & Hjson & Hb & Hold & Hidb).
      apply kept_before in Hold as (tm & Htm & Hcmp).
      exists sess, listed, listing, b, id, tm.
      split; [rewrite Htr; do 3 right; by left|].
      do 4 (split; [done|]). split; [exact Hcmp|]. split; [|done].
      intros n Hn. unfold time_of in Hn. destruct b as [| | | | | |items]; try discriminate.
      simpl in Htm. rewrite Htm in Hn. simpl in Hn. unfold cutoff, days, second in *.
      destruct tm as [|bl|m| | | |]; try discriminate; injection Hn as <-;
        simpl in Hcmp; injection Hcmp as Hcmp; exact Hcmp.
Qed.

Lemma only_old_listed_bookmarks_are_archived_witness :
  ∃ oauth_session listed listing bookmark bookmark_id t,
    Post (list_request oauth_session) listed ∈ (run scenario_fractional).1 ∧
    status_code listed = 200 ∧
    json listed = Some (VList listing) ∧
    bookmark ∈ drop 1 listing ∧
    time_field bookmark = Some t ∧
    seconds_cmp t (now scenario_fractional - 7 * 86400 * 1000000) = Some Lt ∧
    (∀ n, time_of bookmark = Some n → n * second < now scenario_fractional - days 7) ∧
    id_of bookmark = Some bookmark_id ∧
    archive_request example_session (VInt 5) = archive_request oauth_session bookmark_id.
Proof.
  apply (only_old_listed_bookmarks_are_archived scenario_fractional
           (archive_request example_session (VInt 5)) (answer 200 "" None)).
  - apply (list_elem_of_lookup_2 _ 8%nat). vm_compute. reflexivity.
  - reflexivity.
Defined.

(** X9. A run returns, exits with status 1, or ends in an uncaught
    exception: [sys.exit] is never reached with another code, so the exit
    status of the script is 0 or 1. *)
Theorem exit_status_is_0_or_1 w :
  ((run w).2 = Ret tt ∨ (run w).2 = Exit 1 ∨ ∃ e, (run w).2 = Raise e) ∧
  (exit_status (run w).2 = 0 ∨ exit_status (run w).2 = 1).
Proof.
  assert ((run w).2 = Ret tt ∨ (run w).2 = Exit 1 ∨ ∃ e, (run w).2 = Raise e) as Hout.
  { destruct (run_anatomy w)
      as [(_ & _ & _ & Hout)|(u & p & ck & cs & _ & [(_ & _ & Hout)|(t & s & evs & ids & Hrun)])].
    - by right.
    - by right.
    - cbn zeta in Hrun. by destruct Hrun as (_ & _ & _ & _ & Hout & _). }
  split; [exact Hout|].
  destruct Hout as [->|[->|[e ->]]]; simpl; auto.
Qed.

(** X10.  The requests of a run, in order.  A configuration without
    credentials sends none.  With credentials that are strings (the
    password empty when absent) the first request is the token request
    built from them; it stays alone, or is followed by one listing request
    and then archive requests only, all signed with the consumer key and
    secret of the configuration and the token pair [get_access_token]
    returned. *)
Theorem requests_follow_the_protocol w :
  (credentials w = None → sent (run w).1 = []) ∧
  ∀ username password consumer_key consumer_secret,
    credentials w
    = Some (VStr username, VStr password, VStr consumer_key, VStr consumer_secret) →
    let req :=
      token_request (VStr username) (VStr password) (VStr consumer_key) (VStr consumer_secret) in
    sent (run w).1 = [req] ∨
    ∃ t s ids,
      let oauth_session :=
        OAuth1Session (VStr consumer_key) (VStr consumer_secret) (Some t) (Some s) in
      (get_access_token w (VStr username) (VStr password) (VStr consumer_key)
         (VStr consumer_secret) [authenticating]).2 = Ret (t, s) ∧
      sent (run w).1
      = req :: list_request oauth_session :: map (archive_request oauth_session) ids.
Proof.
  destruct (run_anatomy w)
    as [(Hcred & Hnone & _)|(u & p & ck & cs & Hcred & [(Hone & _)|(t & s & evs & ids & Hrun)])].
  - split; [done|]. intros ???? Hsome. congruence.
  - split; [congruence|]. intros ???? Hsome. rewrite Hsome in Hcred.
    injection Hcred as <- <- <- <-. by left.
  - split; [congruence|]. intros ???? Hsome. rewrite Hsome in Hcred.
    injection Hcred as <- <- <- <-. right. exists t, s, ids.
    cbn zeta in *. destruct Hrun as (Htok & Htr & Hevs & _). split; [done|].
    rewrite Htr. simpl. by rewrite <- Hevs.
Qed.

Lemma requests_follow_the_protocol_witness :
  sent (run scenario_a).1 = [example_token_request] ∨
  ∃ t s ids,
    (get_access_token scenario_a (VStr "reader@example.org") (VStr "") (VStr "key")
       (VStr "secret") [authenticating]).2 = Ret (t, s) ∧
    sent (run scenario_a).1
    = example_token_request
        :: list_request (OAuth1Session (VStr "key") (VStr "secret") (Some t) (Some s))
        :: map (archive_request (OAuth1Session (VStr "key") (VStr "secret") (Some t) (Some s)))
             ids.
Proof.
  destruct (requests_follow_the_protocol scenario_a) as [_ Hsent].
  apply (Hsent "reader@example.org" "" "key" "secret"). reflexivity.
Defined.

(** X11. When a run prints its summary, the error stream holds exactly one
    line per failed attempt: its length is the failed count of the
    summary, and it is empty when the count is 0. *)
Theorem stderr_counts_the_failures w a f :
  Print Stdout (summary a f) ∈ (run w).1 →
  Z.of_nat (length (error_stream (run w))) = f ∧
  (f = 0 → error_stream (run w) = []).
Proof.
  intros Hin.
  assert (Z.of_nat (length (error_stream (run w))) = f) as Hlen.
  { destruct (summary_printed_last w a f Hin) as (_ & _ & Hf & Hpos & Hzero & _).
    assert (0 ≤ f) as Hf0 by (rewrite Hf; unfold failures; lia).
    assert (error_stream (run w) = stderr_lines (run w).1) as ->.
    { unfold error_stream. destruct (decide (f = 0)) as [Hz|Hnz].
      - rewrite (Hzero Hz). apply app_nil_r.
      - rewrite Hpos by lia. apply app_nil_r. }
    destruct (run_anatomy w)
      as [(_ & _ & Hno & _)|(u & p & ck & cs & _ & [(_ & Hno & _)|(t & s & evs & ids & Hrun)])].
    - by apply Hno in Hin.
    - by apply Hno in Hin.
    - cbn zeta in Hrun. destruct Hrun as (_ & Htr & _ & _ & _ & Herr).
      rewrite Htr in Hin |- *. apply elem_of_4 in Hin as [?|[?|[?|[?|Hin]]]]; try done.
      simpl. by apply (Herr a). }
  split; [exact Hlen|]. intros ->.
  destruct (error_stream (run w)); [done|]. simpl in Hlen. lia.
Qed.

Lemma stderr_counts_the_failures_witness :
  Z.of_nat (length (error_stream (run scenario_b))) = 1 ∧
  (1 = 0 → error_stream (run scenario_b) = []).
Proof.
  apply (stderr_counts_the_failures scenario_b 0 1).
  apply (list_elem_of_lookup_2 _ 8%nat). vm_compute. reflexivity.
Defined.
